(** * Two-phase Darcy flow (fenics/darcy-two-phase.py)

    A shallow embedding of the script's own code: the coefficient
    functions [lmbdainv] and [F], the upwind normal velocities [un] and
    [un_h] with the facet terms built from them, the two boundary
    expressions, and the time-stepping loop.

    The script builds its forms by applying Python functions to UFL
    expression objects; the embedding keeps that shape: a form is a value
    of [expr], the Python functions are functions on [expr], and [eval]
    gives the real number an expression denotes at one point of a cell or
    facet.  Saturations, velocities and coefficients are real numbers
    (rounding in the compiled form code is not modelled).  The clock of
    the time loop is a Python float and is modelled as a binary64 float. *)

From Stdlib Require Import Reals Lra Psatz.
From Stdlib Require Import List Bool PeanoNat Lia.
From Stdlib Require Import Floats.
Import ListNotations.

Set Warnings "-inexact-float".

(* ================================================================== *)
(** * Part I: the program *)
(* ================================================================== *)

(** ** Option as the error monad

    [None] stands for a raised Python exception (ZeroDivisionError,
    IndexError, the RuntimeError of a failed solve) or an undefined
    value in the form code. *)

Definition bind {A B : Type} (m : option A) (k : A -> option B) : option B :=
  match m with
  | Some a => k a
  | None => None
  end.

Notation "x <- m ;; k" := (bind m (fun x => k))
  (at level 61, m at next level, right associativity).

(** ** UFL expressions at a point *)

Module UFL.

(** The two cells sharing an interior facet: [e('+')] and [e('-')]. *)
Inductive side : Type := Plus | Minus.

(** The mesh is [UnitSquareMesh(64, 64)]: vectors have two components. *)
Inductive comp : Type := X0 | X1.

(** Terminals of the forms.  [u, p, s = split(U)],
    [u0, p0, s0 = split(U0)], [v, q, r = split(V)], [n = FacetNormal],
    [dt = Constant(0.01)], [pbar], [sbar]. *)
Inductive leaf : Type :=
| u_ (i : comp) | p_ | s_
| u0_ (i : comp) | p0_ | s0_
| v_ (i : comp) | q_ | r_
| n_ (i : comp)
| dt_ | pbar_ | sbar_.

Inductive expr : Type :=
| Const (c : R)
| Leaf (l : leaf)
| Add (a b : expr)
| Sub (a b : expr)
| Mul (a b : expr)
| Div (a b : expr)
| Pow (a : expr) (k : nat)
| Sqrt (a : expr)
| Restricted (a : expr) (sd : side).

(** Values of the terminals on each side of the point. *)
Definition point_data : Type := side -> leaf -> R.

(** Denotation.  A quotient with a zero denominator and a square root
    of a negative number have no value. *)
Fixpoint eval (env : point_data) (sd : side) (e : expr) : option R :=
  match e with
  | Const c => Some c
  | Leaf l => Some (env sd l)
  | Add a b => x <- eval env sd a ;; y <- eval env sd b ;; Some (x + y)%R
  | Sub a b => x <- eval env sd a ;; y <- eval env sd b ;; Some (x - y)%R
  | Mul a b => x <- eval env sd a ;; y <- eval env sd b ;; Some (x * y)%R
  | Div a b =>
      x <- eval env sd a ;; y <- eval env sd b ;;
      if Req_dec_T y 0 then None else Some (x / y)%R
  | Pow a k => x <- eval env sd a ;; Some (x ^ k)%R
  | Sqrt a =>
      x <- eval env sd a ;;
      if Rle_dec 0 x then Some (R_sqrt.sqrt x) else None
  | Restricted a sd' => eval env sd' a
  end.

Declare Scope ufl_scope.
Delimit Scope ufl_scope with ufl.
Bind Scope ufl_scope with expr.
Notation "a + b" := (Add a b) : ufl_scope.
Notation "a - b" := (Sub a b) : ufl_scope.
Notation "a * b" := (Mul a b) : ufl_scope.
Notation "a / b" := (Div a b) : ufl_scope.
Notation "a ** k" := (Pow a k) (at level 30, right associativity) : ufl_scope.
Notation "# c" := (Const c%R) (at level 9, c at level 9, format "# c") : ufl_scope.

(** Two-component vectors of expressions and [inner]. *)
Definition vec : Type := (expr * expr)%type.

Definition inner (a b : vec) : expr :=
  (fst a * fst b + snd a * snd b)%ufl.

Definition u : vec := (Leaf (u_ X0), Leaf (u_ X1)).
Definition u0 : vec := (Leaf (u0_ X0), Leaf (u0_ X1)).
Definition n : vec := (Leaf (n_ X0), Leaf (n_ X1)).
Definition s : expr := Leaf s_.
Definition s0 : expr := Leaf s0_.
Definition r : expr := Leaf r_.
Definition dt : expr := Leaf dt_.
Definition sbar : expr := Leaf sbar_.

(** [jump(r)] is [r('+') - r('-')]. *)
Definition jump (e : expr) : expr :=
  (Restricted e Plus - Restricted e Minus)%ufl.

(** [inner] of two scalars is their product. *)
Definition inner_scalar (a b : expr) : expr := (a * b)%ufl.

(** A form is a sum of integrals: [e*dx], [e*ds] (exterior facets),
    [e*dS] (interior facets). *)
Inductive measure : Type := dx | ds | dS.

Record integral : Type := Integral { integrand : expr; over : measure }.

Definition form : Type := list integral.

(** The contribution of one cell or facet to an integral: the
    quadrature sum of the integrand over its points. *)
Fixpoint quadrature (rule : list (R * point_data)) (e : expr) : option R :=
  match rule with
  | [] => Some 0%R
  | (w, env) :: rule' =>
      x <- eval env Plus e ;; acc <- quadrature rule' e ;; Some (w * x + acc)%R
  end.

End UFL.

Import UFL.
Open Scope ufl_scope.

(** ** Coefficient functions (lines 83-88) *)

(** Division of two Python floats: a zero divisor raises. *)
Definition py_div (a b : R) : option R :=
  if Req_dec_T b 0 then None else Some (a / b)%R.

Section Coefficients.

(** Relative viscosity of water w.r.t. crude oil; [0.2] in the script. *)
Variable mu_rel : R.

(** [1.0/((1.0/mu_rel)*s**2 + (1.0 - s)**2)].  The inner quotient
    [1.0/mu_rel] is taken by Python while the form is built, on two
    floats, and enters the expression as a constant. *)
Definition lmbdainv (s : expr) : option expr :=
  c <- py_div 1 mu_rel ;;
  Some (#1 / (#c * s ** 2 + (#1 - s) ** 2)).

(** [s**2/(s**2 + mu_rel*(1.0 - s)**2)]. *)
Definition F (s : expr) : expr :=
  s ** 2 / (s ** 2 + #mu_rel * (#1 - s) ** 2).

(** [s_mid = 0.5*(s0 + s)] (line 123). *)
Definition s_mid : expr := #0.5 * (s0 + s).

(** ** Upwind normal velocities and the facet terms (lines 135-140) *)

(** [0.5*(inner(u0, n) + sqrt(inner(u0, n)*inner(u0, n)))] *)
Definition un : expr :=
  #0.5 * (inner u0 n + Sqrt (inner u0 n * inner u0 n)).

(** [0.5*(inner(u0, n) - sqrt(inner(u0, n)*inner(u0, n)))] *)
Definition un_h : expr :=
  #0.5 * (inner u0 n - Sqrt (inner u0 n * inner u0 n)).

(** [dt('+')*inner(jump(r), un('+')*F(s_mid)('+') - un('-')*F(s_mid)('-'))*dS
     + dt*r*un_h*sbar*ds] *)
Definition stabilisation : form :=
  [ Integral
      (Restricted dt Plus *
       inner_scalar (jump r)
         (Restricted un Plus * Restricted (F s_mid) Plus
          - Restricted un Minus * Restricted (F s_mid) Minus))
      dS;
    Integral (dt * r * un_h * sbar) ds ].

(** The exterior-facet term of [L3]: [dt*r*F(s_mid)*un*ds]. *)
Definition outflow : form :=
  [ Integral (dt * r * F s_mid * un) ds ].

End Coefficients.

(** Evaluation of an expression whose construction may have raised. *)
Definition eval_built (env : point_data) (sd : side) (oe : option expr) : option R :=
  e <- oe ;; eval env sd e.

Close Scope ufl_scope.

(** ** Boundary expressions (lines 94-102)

    [eval(self, values, x)] writes into the array [values] it is handed
    and reads the position [x]; both are arrays of reals.  Indexing an
    empty array raises. *)

Module BC.

(** [a[0]] *)
Definition getitem0 (a : list R) : option R :=
  match a with
  | [] => None
  | a0 :: _ => Some a0
  end.

(** [a[0] = v] *)
Definition setitem0 (a : list R) (v : R) : option (list R) :=
  match a with
  | [] => None
  | _ :: a' => Some (v :: a')
  end.

(** [PressureBC.eval]: [values[0] = 1.0 - x[0]]. *)
Definition PressureBC_eval (values x : list R) : option (list R) :=
  x0 <- getitem0 x ;;
  setitem0 values (1 - x0)%R.

Section Saturation.

(** The dolfin constant; [3.0e-16] in the library. *)
Variable DOLFIN_EPS : R.

(** [SaturationBC.eval]: [if x[0] < DOLFIN_EPS: values[0] = 1.0];
    there is no other branch, the array is left as it was. *)
Definition SaturationBC_eval (values x : list R) : option (list R) :=
  x0 <- getitem0 x ;;
  if Rlt_dec x0 DOLFIN_EPS then setitem0 values 1%R
  else Some values.

End Saturation.

End BC.

(** ** Newton solver *)

Module Newton.

Record parameters : Type := Parameters {
  absolute_tolerance : float;
  relative_tolerance : float;
  maximum_iterations : nat
}.

(** What the script sets on its [NewtonSolver] (lines 150-152). *)
Definition solver_parameters : parameters :=
  {| absolute_tolerance := 1e-12;
     relative_tolerance := 1e-6;
     maximum_iterations := 10 |}.

(** Modelled from the spec: how a solve ends (sections 4.3 and 7), with
    the number of iterations made. *)
Inductive result (Vec : Type) : Type :=
| Converged (U : Vec) (iterations : nat)
| NewtonDivergence (iterations : nat)
| LinearSolveFailure (iterations : nat).

Arguments Converged {Vec} U iterations.
Arguments NewtonDivergence {Vec} iterations.
Arguments LinearSolveFailure {Vec} iterations.

Section Solver.

Variable Vec : Type.

(** Step 1 of an iteration: assemble [L(U)] and take its norm. *)
Variable residual_norm : Vec -> float.

(** Steps 2 and 3: solve [J δ = −L] and set [U ← U + δ]; [None] when
    the linear solver reports failure. *)
Variable newton_update : Vec -> option Vec.

Variable par : parameters.

(** Modelled from the spec: the stop test of step 4, [‖L‖ < atol] or
    [‖L‖ < rtol·‖L₀‖]. *)
Definition tolerance_met (L L0 : float) : bool :=
  (L <? absolute_tolerance par)%float
  || (L <? relative_tolerance par * L0)%float.

(** Modelled from the spec: the iteration of section 4.3.  The class
    [NewtonSolver] belongs to the dolfin library and is not part of
    the script.  [budget] iterations remain, [done] were made, [L0]
    is the residual norm of the first iteration once it is known. *)
Fixpoint iterate (budget done : nat) (L0 : option float) (U : Vec)
  : result Vec :=
  match budget with
  | O => NewtonDivergence done
  | S budget' =>
      let L := residual_norm U in
      let L0' := match L0 with Some l => l | None => L end in
      match newton_update U with
      | None => LinearSolveFailure done
      | Some U' =>
          if tolerance_met L L0' then Converged U' (S done)
          else iterate budget' (S done) (Some L0') U'
      end
  end.

(** Modelled from the spec: the solver's entry point, with the
    iteration budget [maximum_iterations]. *)
Definition solve (U : Vec) : result Vec :=
  iterate (maximum_iterations par) 0 None U.

(** The iterate after [k] updates, when all of them succeed. *)
Fixpoint iterates (k : nat) (U : Vec) : option Vec :=
  match k with
  | O => Some U
  | S k' => U' <- newton_update U ;; iterates k' U'
  end.

(** The stop test [k] iterations after [U], against the first
    residual norm [L0]. *)
Definition met_from (L0 : float) (U : Vec) (k : nat) : bool :=
  match iterates k U with
  | Some Uk => tolerance_met (residual_norm Uk) L0
  | None => false
  end.

(** The stop test of iteration [k] (counted from 0) of a solve
    started at [U]. *)
Definition met_at (U : Vec) (k : nat) : bool :=
  met_from (residual_norm U) U k.

Definition iterations (res : result Vec) : nat :=
  match res with
  | Converged _ k => k
  | NewtonDivergence k => k
  | LinearSolveFailure k => k
  end.

End Solver.

Arguments iterations {Vec} res.

End Newton.

(** ** The time loop (lines 161-178) *)

Module TimeLoop.

(** [float(dt)] with [dt = Constant(0.01)]. *)
Definition float_dt : float := 0.01.

(** [T = 250*float(dt)] *)
Definition T : float := (250 * float_dt)%float.

(** The four writers of lines 175-178. *)
Inductive sink : Type := p_file | s_file | u_file | data_file_time.

Section Loop.

(** Degree-of-freedom vectors of the mixed space. *)
Variable Vec : Type.

(** [solver.solve(problem, U.vector())]: the forms of [problem] read
    [U0]; the call overwrites [U] or raises ([None]). *)
Variable solver_solve : forall (U0 U : Vec), option Vec.

Inductive event : Type :=
| Assigned (U0 : Vec)
| Solved (t : float) (U : Vec)
| Raised (t : float)
| Written (f : sink) (t : float) (U : Vec).

Record state : Type := State {
  t : float;
  U : Vec;
  U0 : Vec;
  trace : list event
}.

Inductive outcome : Type :=
| Done (st : state)
| Aborted (t : float) (tr : list event)
| OutOfFuel (st : state).

(** The body of the [while]: [t += float(dt)], [U0.assign(U)],
    the solve, then the four writes.  An exception of the solve
    ends the script before any write. *)
Definition loop_body (st : state) : state + (float * list event) :=
  let t' := (t st + float_dt)%float in
  let U0' := U st in
  match solver_solve U0' (U st) with
  | None => inr (t', trace st ++ [Assigned U0'; Raised t'])
  | Some U' =>
      inl {| t := t'; U := U'; U0 := U0';
             trace := trace st ++
               [Assigned U0'; Solved t' U';
                Written p_file t' U'; Written s_file t' U';
                Written u_file t' U'; Written data_file_time t' U'] |}
  end.

(** [while t < T: ...] *)
Fixpoint time_loop (fuel : nat) (st : state) : outcome :=
  match fuel with
  | O => OutOfFuel st
  | S fuel' =>
      if (t st <? T)%float then
        match loop_body st with
        | inl st' => time_loop fuel' st'
        | inr (t', tr) => Aborted t' tr
        end
      else Done st
  end.

(** The script from line 162 on: [t = 0.0], and [U], [U0] are the
    freshly created functions [zero]. *)
Definition run (fuel : nat) (zero : Vec) : outcome :=
  time_loop fuel {| t := 0; U := zero; U0 := zero; trace := [] |}.

Definition trace_of (out : outcome) : list event :=
  match out with
  | Done st => trace st
  | Aborted _ tr => tr
  | OutOfFuel st => trace st
  end.

(** Number of passes through the loop body recorded in a trace. *)
Definition steps (tr : list event) : nat :=
  length (filter (fun e => match e with Assigned _ => true | _ => false end) tr).

Definition solves (tr : list event) : nat :=
  length (filter (fun e => match e with Solved _ _ => true | _ => false end) tr).

Definition sink_eqb (f g : sink) : bool :=
  match f, g with
  | p_file, p_file | s_file, s_file | u_file, u_file
  | data_file_time, data_file_time => true
  | _, _ => false
  end.

Definition writes (f : sink) (tr : list event) : nat :=
  length (filter (fun e => match e with Written g _ _ => sink_eqb f g | _ => false end) tr).

(** The clock after [k] increments. *)
Fixpoint clock (k : nat) (t0 : float) : float :=
  match k with
  | O => t0
  | S k' => clock k' (t0 + float_dt)%float
  end.

End Loop.

Arguments Assigned {Vec} U0.
Arguments Solved {Vec} t U.
Arguments Raised {Vec} t.
Arguments Written {Vec} f t U.
Arguments Done {Vec} st.
Arguments Aborted {Vec} t tr.
Arguments OutOfFuel {Vec} st.
Arguments t {Vec} s.
Arguments U {Vec} s.
Arguments U0 {Vec} s.
Arguments trace {Vec} s.
Arguments trace_of {Vec} out.
Arguments steps {Vec} tr.
Arguments solves {Vec} tr.
Arguments writes {Vec} f tr.

End TimeLoop.

(** ** The nonlinear problem handed to the solver (lines 55-67) *)

Module MyNonlinearProblem.

Section Problem.

(** Forms, form-compiler parameters, assembled tensors, and the vector
    of the function the forms read. *)
Variables Form Params Tensor Vec : Type.

(** [assemble(form, tensor=..., form_compiler_parameters=...)]: the
    assembled tensor replaces the content of the one passed in; the form
    reads the current values of [U], whose vector is the [x] the solver
    passes. *)
Variable assemble : Form -> Params -> Vec -> Tensor.

Record problem : Type := Problem {
  L : Form;
  a : Form;
  reset_sparsity : bool;
  ffc_parameters : Params
}.

(** [__init__(self, a, L, ffc_parameters)] *)
Definition init (a0 L0 : Form) (ffc_parameters0 : Params) : problem :=
  {| L := L0; a := a0; reset_sparsity := true;
     ffc_parameters := ffc_parameters0 |}.

(** [F(self, b, x)] *)
Definition F (self : problem) (b : Tensor) (x : Vec) : problem * Tensor :=
  (self, assemble (L self) (ffc_parameters self) x).

(** [J(self, A, x)] *)
Definition J (self : problem) (A : Tensor) (x : Vec) : problem * Tensor :=
  ({| L := L self; a := a self; reset_sparsity := false;
      ffc_parameters := ffc_parameters self |},
   assemble (a self) (ffc_parameters self) x).

End Problem.

Arguments L {Form Params} p.
Arguments a {Form Params} p.
Arguments reset_sparsity {Form Params} p.
Arguments ffc_parameters {Form Params} p.

End MyNonlinearProblem.

(** ** Permeability (lines 78-80) *)

Module Permeability.

(** The divisor of [kinv]:
    [std::max(exp(-pow((x[1] - 0.5 - 0.1*sin(10*x[0]))/0.1, 2.0)), 0.01)]. *)
Definition kinv_divisor (x0 x1 : R) : R :=
  Rmax (exp (- (((x1 - 0.5 - 0.1 * sin (10 * x0)) / 0.1) ^ 2))) 0.01.

(** [kinv]: [1.0/std::max(...)]. *)
Definition kinv (x0 x1 : R) : R := (1 / kinv_divisor x0 x1)%R.

(** [zero = Expression("0.0")] *)
Definition zero (x0 x1 : R) : R := 0%R.

(** [Kinv = as_matrix(((kinv, zero), (zero, kinv)))] *)
Definition Kinv (x0 x1 : R) : (R * R) * (R * R) :=
  ((kinv x0 x1, zero x0 x1), (zero x0 x1, kinv x0 x1)).

End Permeability.

(* ================================================================== *)
(** * Part II: vocabulary of the properties *)
(* ================================================================== *)

Open Scope R_scope.

(** The denominator of a quotient expression. *)
Definition denominator (e : expr) : option expr :=
  match e with
  | Div _ b => Some b
  | _ => None
  end.

(** The previous-step normal velocity [u0·n] on one side of a point. *)
Definition normal_velocity (env : point_data) (sd : side) : R :=
  env sd (u0_ X0) * env sd (n_ X0) + env sd (u0_ X1) * env sd (n_ X1).

(** Terminals that belong to the current iterate [U]. *)
Definition of_U (l : leaf) : bool :=
  match l with
  | u_ _ | p_ | s_ => true
  | _ => false
  end.

(** Two points that differ at most in the values of [U]. *)
Definition same_but_U (env env' : point_data) : Prop :=
  forall sd l, of_U l = false -> env sd l = env' sd l.

(** The point [env] with [U] moved by [h] along the direction [dU]. *)
Definition perturb (env dU : point_data) (h : R) : point_data :=
  fun sd l => if of_U l then env sd l + h * dU sd l else env sd l.

(** The terminals an expression reads. *)
Fixpoint leaves (e : expr) : list leaf :=
  match e with
  | Const _ => []
  | Leaf l => [l]
  | Add a b | Sub a b | Mul a b | Div a b => leaves a ++ leaves b
  | Pow a _ | Sqrt a | Restricted a _ => leaves a
  end.

(** Traces made of completed passes through the loop body: the
    snapshot, the solve, then one write to each of the four sinks. *)
Inductive completed_steps {Vec : Type} : list (TimeLoop.event Vec) -> Prop :=
| no_step : completed_steps []
| one_more_step (tr : list (TimeLoop.event Vec)) (t : float) (U0 U : Vec) :
    completed_steps tr ->
    completed_steps
      (tr ++ [TimeLoop.Assigned U0; TimeLoop.Solved t U;
              TimeLoop.Written TimeLoop.p_file t U;
              TimeLoop.Written TimeLoop.s_file t U;
              TimeLoop.Written TimeLoop.u_file t U;
              TimeLoop.Written TimeLoop.data_file_time t U]).

(** A point where every terminal has the value [c] on both sides. *)
Definition constant_point (c : R) : point_data := fun _ _ => c.

(** A point where the terminals of [U] have the value [a] and all
    others the value [b]. *)
Definition split_point (a b : R) : point_data :=
  fun _ l => if of_U l then a else b.

(** Two one-unknown problems for the solver: the residual norm of [x] is
    [|x|]; an update divides [x] by 1024, or leaves it as it is. *)
Definition shrinking_update (x : float) : option float :=
  Some (x / 1024)%float.

Definition idle_update (x : float) : option float := Some x.

(** A solve that always returns, on a state with no content. *)
Definition trivial_solve (U0 U : unit) : option unit := Some tt.

(** [DOLFIN_EPS] as the dolfin library defines it. *)
Definition DOLFIN_EPS_run : R := 3e-16.

(** [mu_rel = 0.2] (line 75). *)
Definition mu_rel_run : R := 0.2.

(** The same point with the labels ['+'] and ['-'] of the two cells
    exchanged. *)
Definition other (sd : side) : side :=
  match sd with Plus => Minus | Minus => Plus end.

Definition swap_sides (env : point_data) : point_data :=
  fun sd l => env (other sd) l.

(** The value of [s_mid] on one side of a point. *)
Definition s_mid_value (env : point_data) (sd : side) : R :=
  0.5 * (env sd s0_ + env sd s_).

(** The closed form of [F]. *)
Definition F_value (mu_rel x : R) : R :=
  x ^ 2 / (x ^ 2 + mu_rel * (1 - x) ^ 2).

(** The three facet integrals, by their place in the forms. *)
Definition interior_term (mu_rel : R) : integral :=
  nth 0 (stabilisation mu_rel) (Integral (Const 0) dS).

Definition inflow_term (mu_rel : R) : integral :=
  nth 1 (stabilisation mu_rel) (Integral (Const 0) ds).

Definition outflow_term (mu_rel : R) : integral :=
  nth 0 (outflow mu_rel) (Integral (Const 0) ds).

(** A point of an interior facet with normal [(1, 0)] seen from ['+'] and
    [(-1, 0)] seen from ['-'], crossed by the velocity [u0 = (2, 0.5)];
    every other terminal is [0.5]. *)
Definition crossing_point : point_data :=
  fun sd l =>
    match l, sd with
    | n_ X0, Plus => 1
    | n_ X0, Minus => -1
    | n_ X1, _ => 0
    | u0_ X0, _ => 2
    | _, _ => 0.5
    end.

(** The product of a 2x2 matrix with a vector, and the quadratic form
    [v . (M v)]. *)
Definition matvec (M : (R * R) * (R * R)) (v : R * R) : R * R :=
  (fst (fst M) * fst v + snd (fst M) * snd v,
   fst (snd M) * fst v + snd (snd M) * snd v).

Definition quadratic_form (M : (R * R) * (R * R)) (v : R * R) : R :=
  fst v * fst (matvec M v) + snd v * snd (matvec M v).

(** The distance, in the [x1] direction, of a position from the centre
    line [x1 = 0.5 + 0.1 sin(10 x0)] of the channel. *)
Definition off_centre (x0 x1 : R) : R := x1 - 0.5 - 0.1 * sin (10 * x0).

(** Calls made on the problem object by a solver. *)
Inductive call : Type := call_F | call_J.

Definition is_J (c : call) : bool :=
  match c with call_J => true | call_F => false end.

(** The times stamped on the writes to one sink, the snapshots taken and
    the solutions returned, in the order of the trace. *)
Fixpoint write_times {Vec : Type} (f : TimeLoop.sink)
  (tr : list (TimeLoop.event Vec)) : list float :=
  match tr with
  | [] => []
  | TimeLoop.Written g t _ :: tr' =>
      if TimeLoop.sink_eqb f g then t :: write_times f tr' else write_times f tr'
  | _ :: tr' => write_times f tr'
  end.

Fixpoint snapshots {Vec : Type} (tr : list (TimeLoop.event Vec)) : list Vec :=
  match tr with
  | [] => []
  | TimeLoop.Assigned U0 :: tr' => U0 :: snapshots tr'
  | _ :: tr' => snapshots tr'
  end.

Fixpoint solutions {Vec : Type} (tr : list (TimeLoop.event Vec)) : list Vec :=
  match tr with
  | [] => []
  | TimeLoop.Solved _ U :: tr' => U :: solutions tr'
  | _ :: tr' => solutions tr'
  end.

(** The clock values [clock 1 0, ..., clock k 0]. *)
Definition clock_values (k : nat) : list float :=
  map (fun i => TimeLoop.clock i 0%float) (seq 1 k).

(** Lists of floats in strictly increasing order. *)
Fixpoint increasing (l : list float) : bool :=
  match l with
  | a :: ((b :: _) as l') => (a <? b)%float && increasing l'
  | _ => true
  end.

(** What holds of the state of a run started from [zero] whenever the
    loop test is reached: the clock is the one of the passes made, at
    most 251 of them, every pass was solved and stamped its writes with
    its clock value, and every pass started from the solution of the pass
    before. *)
Record loop_invariant {Vec : Type} (zero : Vec) (st : TimeLoop.state Vec) : Prop := {
  inv_clock : TimeLoop.t st = TimeLoop.clock (TimeLoop.steps (TimeLoop.trace st)) 0%float;
  inv_bound : (TimeLoop.steps (TimeLoop.trace st) <= 251)%nat;
  inv_solves : TimeLoop.solves (TimeLoop.trace st) = TimeLoop.steps (TimeLoop.trace st);
  inv_stamps : forall f, write_times f (TimeLoop.trace st)
                         = clock_values (TimeLoop.steps (TimeLoop.trace st));
  inv_chain : snapshots (TimeLoop.trace st) ++ [TimeLoop.U st]
              = zero :: solutions (TimeLoop.trace st)
}.

(** What holds of the trace when a solve has raised at time [t']. *)
Record abort_invariant {Vec : Type} (zero : Vec) (t' : float)
  (tr : list (TimeLoop.event Vec)) : Prop := {
  ab_clock : t' = TimeLoop.clock (TimeLoop.steps tr) 0%float;
  ab_bound : (TimeLoop.steps tr <= 251)%nat;
  ab_solves : S (TimeLoop.solves tr) = TimeLoop.steps tr;
  ab_stamps : forall f, write_times f tr = clock_values (TimeLoop.solves tr);
  ab_chain : snapshots tr = zero :: solutions tr
}.

Definition outcome_invariant {Vec : Type} (zero : Vec)
  (out : TimeLoop.outcome Vec) : Prop :=
  match out with
  | TimeLoop.Done st | TimeLoop.OutOfFuel st => loop_invariant zero st
  | TimeLoop.Aborted t' tr => abort_invariant zero t' tr
  end.

(** The problem object after a sequence of calls of [F] and [J], each
    with the tensor and the vector it was given. *)
Fixpoint after_calls {Form Params Tensor Vec : Type}
  (assemble : Form -> Params -> Vec -> Tensor)
  (pb : MyNonlinearProblem.problem Form Params)
  (cs : list (call * Tensor * Vec)) : MyNonlinearProblem.problem Form Params :=
  match cs with
  | [] => pb
  | (call_F, b, x) :: cs' =>
      after_calls assemble
        (fst (MyNonlinearProblem.F Form Params Tensor Vec assemble pb b x)) cs'
  | (call_J, A, x) :: cs' =>
      after_calls assemble
        (fst (MyNonlinearProblem.J Form Params Tensor Vec assemble pb A x)) cs'
  end.

(** A solve that always raises. *)
Definition failing_solve (U0 U : unit) : option unit := None.

(* ================================================================== *)
(** * Part III: properties *)
(* ================================================================== *)

(** ** Evaluation lemmas *)

Lemma bind_some {A B : Type} (m : option A) (k : A -> option B) (a : A) :
  m = Some a -> bind m k = k a.
Proof. intros ->; reflexivity. Qed.

Lemma eval_div (env : point_data) (sd : side) (a b : expr) (x y : R) :
  eval env sd a = Some x -> eval env sd b = Some y -> y <> 0 ->
  eval env sd (Div a b) = Some (x / y).
Proof.
  intros Ha Hb Hy; simpl; rewrite Ha, Hb; simpl.
  destruct (Req_dec_T y 0) as [E | _]; [contradiction | reflexivity].
Qed.

Lemma eval_sqrt (env : point_data) (sd : side) (a : expr) (x : R) :
  eval env sd a = Some x -> 0 <= x ->
  eval env sd (Sqrt a) = Some (R_sqrt.sqrt x).
Proof.
  intros Ha Hx; simpl; rewrite Ha; simpl.
  destruct (Rle_dec 0 x) as [_ | N]; [reflexivity | contradiction].
Qed.

Section CoefficientFacts.

Variable mu_rel : R.
Hypothesis mu_rel_pos : 0 < mu_rel.

Lemma div_nonneg (a b : R) : 0 <= a -> 0 < b -> 0 <= a / b.
Proof. intros Ha Hb; unfold Rdiv; now apply Rle_mult_inv_pos. Qed.

Lemma sq_pos (x : R) : x <> 0 -> 0 < x ^ 2.
Proof. intros Hx; simpl; rewrite Rmult_1_r; now apply Rsqr_pos_lt. Qed.

Lemma sq_nonneg (x : R) : 0 <= x ^ 2.
Proof. simpl; rewrite Rmult_1_r; apply Rle_0_sqr. Qed.

Lemma lmbdainv_den_pos (x : R) : 0 < 1 / mu_rel * x ^ 2 + (1 - x) ^ 2.
Proof.
  assert (Hi : 0 < 1 / mu_rel) by (apply Rdiv_lt_0_compat; lra).
  destruct (Req_dec_T x 0) as [-> | Hx].
  - replace (1 / mu_rel * 0 ^ 2 + (1 - 0) ^ 2) with 1 by ring; lra.
  - pose proof (Rmult_lt_0_compat _ _ Hi (sq_pos x Hx)).
    pose proof (sq_nonneg (1 - x)); lra.
Qed.

Lemma F_den_pos (x : R) : 0 < x ^ 2 + mu_rel * (1 - x) ^ 2.
Proof.
  destruct (Req_dec_T x 0) as [-> | Hx].
  - replace (0 ^ 2 + mu_rel * (1 - 0) ^ 2) with mu_rel by ring; lra.
  - pose proof (sq_pos x Hx).
    pose proof (Rmult_le_pos _ _ (Rlt_le _ _ mu_rel_pos) (sq_nonneg (1 - x))); lra.
Qed.

Lemma py_div_mu_rel : py_div 1 mu_rel = Some (1 / mu_rel).
Proof.
  unfold py_div; destruct (Req_dec_T mu_rel 0); [lra | reflexivity].
Qed.

Lemma eval_lmbdainv_den (env : point_data) (sd : side) (e : expr) (x : R) :
  eval env sd e = Some x ->
  eval env sd (#(1 / mu_rel) * e ** 2 + (#1 - e) ** 2)%ufl
  = Some (1 / mu_rel * x ^ 2 + (1 - x) ^ 2).
Proof. intros He; simpl; rewrite He; reflexivity. Qed.

Lemma eval_F_den (env : point_data) (sd : side) (e : expr) (x : R) :
  eval env sd e = Some x ->
  eval env sd (e ** 2 + #mu_rel * (#1 - e) ** 2)%ufl
  = Some (x ^ 2 + mu_rel * (1 - x) ^ 2).
Proof. intros He; simpl; rewrite He; reflexivity. Qed.

Lemma eval_lmbdainv (env : point_data) (sd : side) (e : expr) (x : R) :
  eval env sd e = Some x ->
  eval_built env sd (lmbdainv mu_rel e)
  = Some (1 / (1 / mu_rel * x ^ 2 + (1 - x) ^ 2)).
Proof.
  intros He; unfold lmbdainv, eval_built.
  rewrite py_div_mu_rel; cbn [bind].
  apply eval_div; [reflexivity | now apply eval_lmbdainv_den |].
  pose proof (lmbdainv_den_pos x); lra.
Qed.

Lemma eval_F (env : point_data) (sd : side) (e : expr) (x : R) :
  eval env sd e = Some x ->
  eval env sd (F mu_rel e) = Some (x ^ 2 / (x ^ 2 + mu_rel * (1 - x) ^ 2)).
Proof.
  intros He; unfold F.
  apply eval_div; [simpl; rewrite He; reflexivity | now apply eval_F_den |].
  pose proof (F_den_pos x); lra.
Qed.

(** C1.  Wherever the saturation expression has the real value [x],
    [lmbdainv] is built without error and denotes
    [1/((1/mu_rel)·x² + (1−x)²)], and [F] denotes
    [x²/(x² + mu_rel·(1−x)²)]. *)
Theorem coefficients_closed_form
  (env : point_data) (sd : side) (e : expr) (x : R) :
  eval env sd e = Some x ->
  eval_built env sd (lmbdainv mu_rel e)
    = Some (1 / (1 / mu_rel * x ^ 2 + (1 - x) ^ 2))
  /\ eval env sd (F mu_rel e)
    = Some (x ^ 2 / (x ^ 2 + mu_rel * (1 - x) ^ 2)).
Proof.
  intros He; split; [now apply eval_lmbdainv | now apply eval_F].
Qed.

(** C4.  With [mu_rel > 0] no quotient of the coefficient functions
    has a zero divisor: not the one Python takes while building
    [lmbdainv], and not the denominators of the two expressions, whatever
    real value [x] the saturation has; and [lmbdainv] is positive. *)
Theorem no_division_by_zero
  (env : point_data) (sd : side) (e : expr) (x : R) :
  eval env sd e = Some x ->
  py_div 1 mu_rel <> None
  /\ (exists e' d dv,
        lmbdainv mu_rel e = Some e' /\ denominator e' = Some d
        /\ eval env sd d = Some dv /\ dv <> 0)
  /\ (exists d dv,
        denominator (F mu_rel e) = Some d
        /\ eval env sd d = Some dv /\ dv <> 0)
  /\ (exists v, eval_built env sd (lmbdainv mu_rel e) = Some v /\ 0 < v)
  /\ (exists v, eval env sd (F mu_rel e) = Some v).
Proof.
  intros He.
  pose proof (lmbdainv_den_pos x) as Hl.
  pose proof (F_den_pos x) as Hf.
  split; [rewrite py_div_mu_rel; discriminate |].
  split.
  { eexists _, _, _; unfold lmbdainv; rewrite py_div_mu_rel; cbn [bind].
    split; [reflexivity |]. split; [reflexivity |].
    split; [exact (eval_lmbdainv_den _ _ _ _ He) | lra]. }
  split.
  { eexists _, _; split; [reflexivity |].
    split; [exact (eval_F_den _ _ _ _ He) | lra]. }
  split.
  - eexists; split; [exact (eval_lmbdainv _ _ _ _ He) |].
    apply Rdiv_lt_0_compat; lra.
  - eexists; exact (eval_F _ _ _ _ He).
Qed.

(** C10.  The two coefficient functions are tied by
    [s² · lmbdainv(s) = mu_rel · F(s)] at every real saturation. *)
Theorem mobility_fractional_flow_relation
  (env : point_data) (sd : side) (e : expr) (x : R) :
  eval env sd e = Some x ->
  exists l f,
    eval_built env sd (lmbdainv mu_rel e) = Some l
    /\ eval env sd (F mu_rel e) = Some f
    /\ x ^ 2 * l = mu_rel * f.
Proof.
  intros He.
  eexists _, _.
  split; [exact (eval_lmbdainv _ _ _ _ He) |].
  split; [exact (eval_F _ _ _ _ He) |].
  pose proof (lmbdainv_den_pos x) as Hl.
  pose proof (F_den_pos x) as Hf.
  field; split; lra.
Qed.

Lemma F_value_range (x : R) :
  0 <= x ^ 2 / (x ^ 2 + mu_rel * (1 - x) ^ 2) <= 1.
Proof.
  pose proof (F_den_pos x) as Hd.
  pose proof (sq_nonneg x) as Hx.
  pose proof (Rmult_le_pos _ _ (Rlt_le _ _ mu_rel_pos) (sq_nonneg (1 - x))) as Hm.
  split.
  - apply div_nonneg; lra.
  - apply (Rmult_le_reg_r (x ^ 2 + mu_rel * (1 - x) ^ 2)); [lra |].
    unfold Rdiv; rewrite Rmult_assoc, Rinv_l by lra; lra.
Qed.

Lemma F_value_monotone (a b : R) :
  0 <= a -> a <= b -> b <= 1 ->
  a ^ 2 / (a ^ 2 + mu_rel * (1 - a) ^ 2)
  <= b ^ 2 / (b ^ 2 + mu_rel * (1 - b) ^ 2).
Proof.
  intros Ha Hab Hb.
  pose proof (F_den_pos a) as Hda.
  pose proof (F_den_pos b) as Hdb.
  set (Da := a ^ 2 + mu_rel * (1 - a) ^ 2) in *.
  set (Db := b ^ 2 + mu_rel * (1 - b) ^ 2) in *.
  assert (Hcross : a ^ 2 * Db <= b ^ 2 * Da).
  { unfold Da, Db.
    assert (H1 : 0 <= a * (1 - b)) by (apply Rmult_le_pos; lra).
    assert (H2 : a * (1 - b) <= b * (1 - a)) by lra.
    assert (H3 : (a * (1 - b)) ^ 2 <= (b * (1 - a)) ^ 2)
      by (apply pow_incr; lra).
    assert (H4 : mu_rel * (a * (1 - b)) ^ 2 <= mu_rel * (b * (1 - a)) ^ 2)
      by (apply Rmult_le_compat_l; lra).
    replace (a ^ 2 * (b ^ 2 + mu_rel * (1 - b) ^ 2))
      with (a ^ 2 * b ^ 2 + mu_rel * (a * (1 - b)) ^ 2) by ring.
    replace (b ^ 2 * (a ^ 2 + mu_rel * (1 - a) ^ 2))
      with (a ^ 2 * b ^ 2 + mu_rel * (b * (1 - a)) ^ 2) by ring.
    lra. }
  assert (Hq : 0 <= (b ^ 2 * Da - a ^ 2 * Db) / (Da * Db))
    by (apply div_nonneg; [lra | now apply Rmult_lt_0_compat]).
  replace ((b ^ 2 * Da - a ^ 2 * Db) / (Da * Db))
    with (b ^ 2 / Db - a ^ 2 / Da) in Hq by (field; lra).
  lra.
Qed.

(** C3.  [F(0) = 0], [F(1) = 1], [F] does not decrease on [[0,1]], and
    [F] maps [[0,1]] into [[0,1]]. *)
Theorem F_endpoints_monotone_range (env : point_data) (sd : side) :
  (forall e, eval env sd e = Some 0 -> eval env sd (F mu_rel e) = Some 0)
  /\ (forall e, eval env sd e = Some 1 -> eval env sd (F mu_rel e) = Some 1)
  /\ (forall e1 e2 a b,
        eval env sd e1 = Some a -> eval env sd e2 = Some b ->
        0 <= a -> a <= b -> b <= 1 ->
        exists fa fb,
          eval env sd (F mu_rel e1) = Some fa
          /\ eval env sd (F mu_rel e2) = Some fb /\ fa <= fb)
  /\ (forall e a,
        eval env sd e = Some a -> 0 <= a -> a <= 1 ->
        exists fa, eval env sd (F mu_rel e) = Some fa /\ 0 <= fa <= 1).
Proof.
  split; [| split; [| split]].
  - intros e He; rewrite (eval_F _ _ _ _ He); f_equal; field; lra.
  - intros e He; rewrite (eval_F _ _ _ _ He); f_equal; field; lra.
  - intros e1 e2 a b H1 H2 Ha Hab Hb.
    eexists _, _.
    split; [exact (eval_F _ _ _ _ H1) |]. split; [exact (eval_F _ _ _ _ H2) |].
    now apply F_value_monotone.
  - intros e a He _ _.
    eexists; split; [exact (eval_F _ _ _ _ He) | apply F_value_range].
Qed.

End CoefficientFacts.

Lemma mu_rel_run_pos : 0 < mu_rel_run.
Proof. unfold mu_rel_run; lra. Qed.

Lemma coefficients_closed_form_witness :
  0 < mu_rel_run
  /\ eval (constant_point 0.5) Plus s = Some 0.5
  /\ eval_built (constant_point 0.5) Plus (lmbdainv mu_rel_run s)
     = Some (1 / (1 / mu_rel_run * 0.5 ^ 2 + (1 - 0.5) ^ 2))
  /\ eval (constant_point 0.5) Plus (F mu_rel_run s)
     = Some (0.5 ^ 2 / (0.5 ^ 2 + mu_rel_run * (1 - 0.5) ^ 2)).
Proof.
  split; [exact mu_rel_run_pos |].
  split; [reflexivity |].
  exact (coefficients_closed_form mu_rel_run mu_rel_run_pos
           (constant_point 0.5) Plus s 0.5 eq_refl).
Defined.

Lemma no_division_by_zero_witness :
  0 < mu_rel_run
  /\ eval (constant_point 0) Plus s = Some 0
  /\ py_div 1 mu_rel_run <> None
  /\ (exists v, eval_built (constant_point 0) Plus (lmbdainv mu_rel_run s) = Some v
               /\ 0 < v)
  /\ (exists v, eval (constant_point 0) Plus (F mu_rel_run s) = Some v).
Proof.
  split; [exact mu_rel_run_pos |].
  split; [reflexivity |].
  destruct (no_division_by_zero mu_rel_run mu_rel_run_pos
              (constant_point 0) Plus s 0 eq_refl) as (Hpy & _ & _ & Hl & Hf).
  split; [exact Hpy |]. split; [exact Hl | exact Hf].
Defined.

Lemma mobility_fractional_flow_relation_witness :
  0 < mu_rel_run
  /\ eval (constant_point 2) Plus s = Some 2
  /\ exists l f,
       eval_built (constant_point 2) Plus (lmbdainv mu_rel_run s) = Some l
       /\ eval (constant_point 2) Plus (F mu_rel_run s) = Some f
       /\ 2 ^ 2 * l = mu_rel_run * f.
Proof.
  split; [exact mu_rel_run_pos |].
  split; [reflexivity |].
  exact (mobility_fractional_flow_relation mu_rel_run mu_rel_run_pos
           (constant_point 2) Plus s 2 eq_refl).
Defined.

Lemma F_endpoints_monotone_range_witness :
  0 < mu_rel_run
  /\ eval (constant_point 0) Plus (F mu_rel_run (Const 0)) = Some 0
  /\ eval (constant_point 0) Plus (F mu_rel_run (Const 1)) = Some 1
  /\ (exists fa fb,
        eval (constant_point 0) Plus (F mu_rel_run (Const 0.25)) = Some fa
        /\ eval (constant_point 0) Plus (F mu_rel_run (Const 0.75)) = Some fb
        /\ fa <= fb)
  /\ (exists fa,
        eval (constant_point 0) Plus (F mu_rel_run (Const 0.5)) = Some fa
        /\ 0 <= fa <= 1).
Proof.
  destruct (F_endpoints_monotone_range mu_rel_run mu_rel_run_pos
              (constant_point 0) Plus) as (H0 & H1 & Hm & Hr).
  split; [exact mu_rel_run_pos |].
  split; [exact (H0 (Const 0) eq_refl) |].
  split; [exact (H1 (Const 1) eq_refl) |].
  split.
  - apply (Hm (Const 0.25) (Const 0.75) 0.25 0.75 eq_refl eq_refl); lra.
  - apply (Hr (Const 0.5) 0.5 eq_refl); lra.
Defined.

(** ** Upwind normal velocities *)

Lemma eval_add (env : point_data) (sd : side) (a b : expr) (x y : R) :
  eval env sd a = Some x -> eval env sd b = Some y ->
  eval env sd (Add a b) = Some (x + y).
Proof. intros Ha Hb; simpl; rewrite Ha, Hb; reflexivity. Qed.

Lemma eval_sub (env : point_data) (sd : side) (a b : expr) (x y : R) :
  eval env sd a = Some x -> eval env sd b = Some y ->
  eval env sd (Sub a b) = Some (x - y).
Proof. intros Ha Hb; simpl; rewrite Ha, Hb; reflexivity. Qed.

Lemma eval_mul (env : point_data) (sd : side) (a b : expr) (x y : R) :
  eval env sd a = Some x -> eval env sd b = Some y ->
  eval env sd (Mul a b) = Some (x * y).
Proof. intros Ha Hb; simpl; rewrite Ha, Hb; reflexivity. Qed.

Lemma eval_inner_u0_n (env : point_data) (sd : side) :
  eval env sd (inner u0 n) = Some (normal_velocity env sd).
Proof. reflexivity. Qed.

Lemma sqrt_square_abs (w : R) : R_sqrt.sqrt (w * w) = Rabs w.
Proof. exact (sqrt_Rsqr_abs w). Qed.

Lemma eval_sqrt_square (env : point_data) (sd : side) :
  eval env sd (Sqrt (inner u0 n * inner u0 n))
  = Some (Rabs (normal_velocity env sd)).
Proof.
  rewrite <- sqrt_square_abs.
  apply eval_sqrt.
  - apply eval_mul; apply eval_inner_u0_n.
  - apply Rle_0_sqr.
Qed.

Lemma eval_un (env : point_data) (sd : side) :
  eval env sd un
  = Some (0.5 * (normal_velocity env sd + Rabs (normal_velocity env sd))).
Proof.
  unfold un; apply eval_mul; [reflexivity |].
  apply eval_add; [apply eval_inner_u0_n | apply eval_sqrt_square].
Qed.

Lemma eval_un_h (env : point_data) (sd : side) :
  eval env sd un_h
  = Some (0.5 * (normal_velocity env sd - Rabs (normal_velocity env sd))).
Proof.
  unfold un_h; apply eval_mul; [reflexivity |].
  apply eval_sub; [apply eval_inner_u0_n | apply eval_sqrt_square].
Qed.

Lemma positive_part (w : R) : 0.5 * (w + Rabs w) = Rmax w 0.
Proof.
  unfold Rabs, Rmax.
  destruct (Rcase_abs w), (Rle_dec w 0); lra.
Qed.

Lemma negative_part (w : R) : 0.5 * (w - Rabs w) = Rmin w 0.
Proof.
  unfold Rabs, Rmin.
  destruct (Rcase_abs w), (Rle_dec w 0); lra.
Qed.

Lemma eval_un_zero (env : point_data) (sd : side) :
  normal_velocity env sd = 0 -> eval env sd un = Some 0.
Proof.
  intros Hw; rewrite eval_un, Hw, Rabs_R0; f_equal; lra.
Qed.

Lemma eval_un_h_zero (env : point_data) (sd : side) :
  normal_velocity env sd = 0 -> eval env sd un_h = Some 0.
Proof.
  intros Hw; rewrite eval_un_h, Hw, Rabs_R0; f_equal; lra.
Qed.

Lemma quadrature_zero (rule : list (R * point_data)) (e : expr) :
  (forall w env, In (w, env) rule -> eval env Plus e = Some 0) ->
  quadrature rule e = Some 0.
Proof.
  induction rule as [| [w env] rule IH]; intros Hz; [reflexivity |].
  simpl.
  rewrite (Hz w env) by (left; reflexivity).
  rewrite IH by (intros w' env' Hin; apply (Hz w' env'); right; exact Hin).
  simpl; f_equal; lra.
Qed.

Section UpwindFacts.

Variable mu_rel : R.
Hypothesis mu_rel_pos : 0 < mu_rel.

Lemma eval_s_mid (env : point_data) (sd : side) :
  eval env sd s_mid = Some (0.5 * (env sd s0_ + env sd s_)).
Proof. reflexivity. Qed.

(** The interior-facet integrand vanishes where the normal velocity
    is zero on both sides. *)
Lemma interior_integrand_zero (env : point_data) (e : expr) :
  (forall sd, normal_velocity env sd = 0) ->
  nth_error (stabilisation mu_rel) 0 = Some (Integral e dS) ->
  eval env Plus e = Some 0.
Proof.
  intros Hw He; injection He as <-.
  pose proof (eval_F mu_rel mu_rel_pos env Plus _ _ (eval_s_mid env Plus)) as HFp.
  pose proof (eval_F mu_rel mu_rel_pos env Minus _ _ (eval_s_mid env Minus)) as HFm.
  unfold inner_scalar, jump.
  erewrite eval_mul;
    [| reflexivity
     | apply eval_mul;
       [reflexivity
       | apply eval_sub; apply eval_mul;
         [exact (eval_un_zero env Plus (Hw Plus)) | exact HFp
         | exact (eval_un_zero env Minus (Hw Minus)) | exact HFm]]].
  f_equal; ring.
Qed.

(** So does the inflow integrand on an exterior facet. *)
Lemma inflow_integrand_zero (env : point_data) (e : expr) :
  normal_velocity env Plus = 0 ->
  nth_error (stabilisation mu_rel) 1 = Some (Integral e ds) ->
  eval env Plus e = Some 0.
Proof.
  intros Hw He; injection He as <-.
  erewrite eval_mul;
    [| apply eval_mul;
       [reflexivity | exact (eval_un_h_zero env Plus Hw)]
     | reflexivity].
  f_equal; ring.
Qed.

(** And the outflow integrand of [L3]. *)
Lemma outflow_integrand_zero (env : point_data) (e : expr) :
  normal_velocity env Plus = 0 ->
  nth_error (outflow mu_rel) 0 = Some (Integral e ds) ->
  eval env Plus e = Some 0.
Proof.
  intros Hw He; injection He as <-.
  pose proof (eval_F mu_rel mu_rel_pos env Plus _ _ (eval_s_mid env Plus)) as HF.
  erewrite eval_mul;
    [| apply eval_mul; [reflexivity | exact HF]
     | exact (eval_un_zero env Plus Hw)].
  f_equal; ring.
Qed.

(** C2.  With [w = u0·n] the previous-step normal velocity at a point,
    [un] is [0.5·(w + |w|) = max(w, 0)] and [un_h] is
    [0.5·(w − |w|) = min(w, 0)]; where [w] is zero both are zero, and a
    facet on which [w] vanishes contributes zero to each integral of the
    stabilisation (the interior jump term and the boundary inflow
    term). *)
Theorem upwind_split_and_tie_break :
  (forall env sd,
      eval env sd un
        = Some (0.5 * (normal_velocity env sd + Rabs (normal_velocity env sd)))
      /\ 0.5 * (normal_velocity env sd + Rabs (normal_velocity env sd))
         = Rmax (normal_velocity env sd) 0
      /\ eval env sd un_h
        = Some (0.5 * (normal_velocity env sd - Rabs (normal_velocity env sd)))
      /\ 0.5 * (normal_velocity env sd - Rabs (normal_velocity env sd))
         = Rmin (normal_velocity env sd) 0)
  /\ (forall env sd,
        normal_velocity env sd = 0 ->
        eval env sd un = Some 0 /\ eval env sd un_h = Some 0)
  /\ (forall rule,
        (forall w env sd, In (w, env) rule -> normal_velocity env sd = 0) ->
        forall I, In I (stabilisation mu_rel) ->
                  quadrature rule (integrand I) = Some 0).
Proof.
  split; [| split].
  - intros env sd.
    repeat split;
      [apply eval_un | apply positive_part | apply eval_un_h | apply negative_part].
  - intros env sd Hw; split; [now apply eval_un_zero | now apply eval_un_h_zero].
  - intros rule Hrule I HI.
    apply quadrature_zero; intros w env Hin.
    destruct HI as [<- | [<- | []]].
    + apply interior_integrand_zero with (e := integrand _);
        [intros sd; exact (Hrule w env sd Hin) | reflexivity].
    + apply inflow_integrand_zero with (e := integrand _);
        [exact (Hrule w env Plus Hin) | reflexivity].
Qed.

End UpwindFacts.

Lemma upwind_split_and_tie_break_witness :
  0 < mu_rel_run
  /\ normal_velocity (constant_point 0) Plus = 0
  /\ eval (constant_point 0) Plus un = Some 0
  /\ eval (constant_point 0) Plus un_h = Some 0
  /\ quadrature [(1, constant_point 0)]
       (Restricted dt Plus *
        inner_scalar (jump r)
          (Restricted un Plus * Restricted (F mu_rel_run s_mid) Plus
           - Restricted un Minus * Restricted (F mu_rel_run s_mid) Minus))%ufl
     = Some 0
  /\ quadrature [(1, constant_point 0)] (dt * r * un_h * sbar)%ufl = Some 0.
Proof.
  assert (Hw : forall sd, normal_velocity (constant_point 0) sd = 0)
    by (intros sd; unfold normal_velocity, constant_point; lra).
  destruct (upwind_split_and_tie_break mu_rel_run mu_rel_run_pos)
    as (_ & Hzero & Hfacet).
  split; [exact mu_rel_run_pos |].
  split; [exact (Hw Plus) |].
  split; [exact (proj1 (Hzero _ Plus (Hw Plus))) |].
  split; [exact (proj2 (Hzero _ Plus (Hw Plus))) |].
  assert (Hrule : forall w env sd,
             In (w, env) [(1, constant_point 0)] -> normal_velocity env sd = 0).
  { intros w env sd [E | []]; injection E as _ <-; exact (Hw sd). }
  split.
  - apply (Hfacet _ Hrule (Integral _ dS)); left; reflexivity.
  - apply (Hfacet _ Hrule (Integral _ ds)); right; left; reflexivity.
Defined.

(** ** The upwind velocities read the previous step only *)

Lemma eval_ext (env env' : point_data) (e : expr) :
  (forall sd l, In l (leaves e) -> env sd l = env' sd l) ->
  forall sd, eval env sd e = eval env' sd e.
Proof.
  induction e as [c | l | a IHa b IHb | a IHa b IHb | a IHa b IHb
                 | a IHa b IHb | a IHa k | a IHa | a IHa sd'];
    intros Hl sd; simpl in *;
    try (rewrite IHa, IHb by (intros; apply Hl; apply in_or_app; auto);
         reflexivity);
    try (rewrite IHa by exact Hl; reflexivity).
  - reflexivity.
  - f_equal; apply Hl; left; reflexivity.
Qed.

Lemma leaves_un_previous : forallb (fun l => negb (of_U l)) (leaves un) = true.
Proof. reflexivity. Qed.

Lemma leaves_un_h_previous : forallb (fun l => negb (of_U l)) (leaves un_h) = true.
Proof. reflexivity. Qed.

Lemma same_but_U_eval (env env' : point_data) (e : expr) :
  forallb (fun l => negb (of_U l)) (leaves e) = true ->
  same_but_U env env' ->
  forall sd, eval env sd e = eval env' sd e.
Proof.
  intros Hl Hsame; apply eval_ext; intros sd l Hin.
  apply Hsame.
  rewrite forallb_forall in Hl; specialize (Hl l Hin).
  now apply negb_true_iff.
Qed.

Lemma same_but_U_perturb (env dU : point_data) (h : R) :
  same_but_U env (perturb env dU h).
Proof. intros sd l Hl; unfold perturb; rewrite Hl; reflexivity. Qed.

Lemma derivable_pt_lim_constant (f : R -> R) (c x : R) :
  (forall h, f h = c) -> derivable_pt_lim f x 0.
Proof.
  intros Hf eps Heps; exists (mkposreal 1 Rlt_0_1); intros h Hh _.
  rewrite !Hf; unfold Rdiv, Rminus.
  rewrite Rplus_opp_r, Rmult_0_l, Rplus_opp_r, Rabs_R0; exact Heps.
Qed.

(** C7.  [un] and [un_h] are functions of the previous-step state only:
    at two points that differ only in the values of the iterate [U]
    they have the same value on either side, and along every direction
    [dU] of change of [U] their derivative is zero. *)
Theorem upwind_velocity_frozen (sd : side) :
  (forall env env',
      same_but_U env env' ->
      eval env sd un = eval env' sd un
      /\ eval env sd un_h = eval env' sd un_h)
  /\ (forall env dU e f x,
        e = un \/ e = un_h ->
        (forall h, eval (perturb env dU h) sd e = Some (f h)) ->
        derivable_pt_lim f x 0).
Proof.
  split.
  - intros env env' Hsame; split.
    + exact (same_but_U_eval env env' un leaves_un_previous Hsame sd).
    + exact (same_but_U_eval env env' un_h leaves_un_h_previous Hsame sd).
  - intros env dU e f x He Hf.
    assert (Hl : forallb (fun l => negb (of_U l)) (leaves e) = true)
      by (destruct He as [-> | ->]; reflexivity).
    apply derivable_pt_lim_constant with (c := f 0); intros h.
    pose proof (same_but_U_eval _ _ e Hl (same_but_U_perturb env dU h) sd) as E1.
    pose proof (same_but_U_eval _ _ e Hl (same_but_U_perturb env dU 0) sd) as E0.
    rewrite Hf in E1, E0.
    congruence.
Qed.

Lemma upwind_velocity_frozen_witness :
  same_but_U (split_point 1 3) (split_point 2 3)
  /\ eval (split_point 1 3) Plus un = eval (split_point 2 3) Plus un
  /\ eval (split_point 1 3) Plus un_h = eval (split_point 2 3) Plus un_h.
Proof.
  assert (Hsame : same_but_U (split_point 1 3) (split_point 2 3))
    by (intros sd l Hl; unfold split_point; rewrite Hl; reflexivity).
  split; [exact Hsame |].
  exact (proj1 (upwind_velocity_frozen Plus) _ _ Hsame).
Defined.

(** ** Boundary expressions *)

Lemma SaturationBC_inflow (eps x0 v : R) (xs vs : list R) :
  x0 < eps ->
  BC.SaturationBC_eval eps (v :: vs) (x0 :: xs) = Some (1 :: vs).
Proof.
  intros Hx; unfold BC.SaturationBC_eval; simpl.
  destruct (Rlt_dec x0 eps); [reflexivity | contradiction].
Qed.

Lemma SaturationBC_elsewhere (eps x0 : R) (xs values : list R) :
  eps <= x0 ->
  BC.SaturationBC_eval eps values (x0 :: xs) = Some values.
Proof.
  intros Hx; unfold BC.SaturationBC_eval; simpl.
  destruct (Rlt_dec x0 eps); [lra | reflexivity].
Qed.

(** C9.  Away from the side [x0 = 0] the evaluator writes nothing: at
    the position [(1, 0.5)] an array holding [0.5] comes back holding
    [0.5], not [0]; on the side [x0 = 0] it comes back holding [1]. *)
Theorem SaturationBC_keeps_array_elsewhere :
  BC.SaturationBC_eval DOLFIN_EPS_run [0.5] [1; 0.5] = Some [0.5]
  /\ BC.SaturationBC_eval DOLFIN_EPS_run [0.5] [0; 0.5] = Some [1]
  /\ 0.5 <> 0.
Proof.
  unfold DOLFIN_EPS_run.
  split; [apply SaturationBC_elsewhere; lra |].
  split; [apply SaturationBC_inflow; lra | lra].
Qed.

Close Scope R_scope.

(** ** Newton solver *)

Section NewtonFacts.

Variable Vec : Type.
Variable residual_norm : Vec -> float.
Variable newton_update : Vec -> option Vec.
Variable par : Newton.parameters.

Let iterate := Newton.iterate Vec residual_norm newton_update par.
Let iterates := Newton.iterates Vec newton_update.
Let met_from := Newton.met_from Vec residual_norm newton_update par.

Lemma iterate_first (budget done : nat) (U : Vec) :
  iterate budget done None U = iterate budget done (Some (residual_norm U)) U.
Proof. destruct budget; reflexivity. Qed.

Lemma iterate_bounded (budget : nat) :
  forall done L0 U,
    Newton.iterations (iterate budget done L0 U) <= budget + done.
Proof.
  induction budget as [| budget IH]; intros done L0 U; simpl; [lia |].
  destruct (newton_update U) as [U' |]; simpl; [| lia].
  destruct (Newton.tolerance_met par _ _); simpl; [lia |].
  specialize (IH (S done) (Some match L0 with Some l => l | None => residual_norm U end) U').
  fold iterate; lia.
Qed.

Lemma met_from_succ (L0 : float) (U U' : Vec) (j : nat) :
  newton_update U = Some U' ->
  met_from L0 U (S j) = met_from L0 U' j.
Proof.
  intros HU; unfold met_from, Newton.met_from; simpl; rewrite HU; reflexivity.
Qed.

Lemma iterate_stops_at_first (L0 : float) (k : nat) :
  forall budget done U U',
    k < budget ->
    (forall j, j < k -> met_from L0 U j = false) ->
    met_from L0 U k = true ->
    iterates (S k) U = Some U' ->
    iterate budget done (Some L0) U = Newton.Converged U' (S k + done).
Proof.
  induction k as [| k IH]; intros budget done U U' Hk Hbefore Hmet Hit;
    (destruct budget as [| budget]; [lia |]);
    unfold iterates in Hit; simpl in Hit;
    destruct (newton_update U) as [U1 |] eqn:HU; try discriminate;
    simpl in Hit; unfold iterate; simpl; rewrite HU.
  - injection Hit as <-.
    unfold met_from, Newton.met_from in Hmet; simpl in Hmet.
    rewrite Hmet; reflexivity.
  - assert (H0 : met_from L0 U 0 = false) by (apply Hbefore; lia).
    unfold met_from, Newton.met_from in H0; simpl in H0; rewrite H0.
    fold iterate.
    rewrite (IH budget (S done) U1 U'); [f_equal; lia | lia | | | exact Hit].
    + intros j Hj; rewrite <- (met_from_succ L0 U U1 j HU); apply Hbefore; lia.
    + rewrite <- (met_from_succ L0 U U1 k HU); exact Hmet.
Qed.

Lemma iterate_exhausts (L0 : float) (budget : nat) :
  forall done U,
    (forall j, j < budget -> met_from L0 U j = false) ->
    iterates budget U <> None ->
    iterate budget done (Some L0) U = Newton.NewtonDivergence (budget + done).
Proof.
  induction budget as [| budget IH]; intros done U Hnever Hall; [reflexivity |].
  unfold iterates in Hall; simpl in Hall.
  destruct (newton_update U) as [U1 |] eqn:HU; [| now elim Hall].
  unfold iterate; simpl; rewrite HU.
  assert (H0 : met_from L0 U 0 = false) by (apply Hnever; lia).
  unfold met_from, Newton.met_from in H0; simpl in H0; rewrite H0.
  fold iterate.
  rewrite (IH (S done) U1); [f_equal; lia | | exact Hall].
  intros j Hj; rewrite <- (met_from_succ L0 U U1 j HU); apply Hnever; lia.
Qed.

End NewtonFacts.

(** C5.  With the tolerances and the iteration budget the script sets,
    a solve never makes more than 10 iterations; it returns [Converged] at
    the first iteration whose residual norm is below [atol] or below
    [rtol] times the first residual norm; and when none of 10 iterations
    meets a tolerance it ends in [NewtonDivergence] after the tenth. *)
Theorem newton_solve_terminates
  (Vec : Type) (residual_norm : Vec -> float)
  (newton_update : Vec -> option Vec) (U : Vec) :
  let solve := Newton.solve Vec residual_norm newton_update Newton.solver_parameters in
  let met_at := Newton.met_at Vec residual_norm newton_update Newton.solver_parameters in
  let iterates := Newton.iterates Vec newton_update in
  Newton.iterations (solve U) <= 10
  /\ (forall k U',
        k < 10 ->
        (forall j, j < k -> met_at U j = false) ->
        met_at U k = true ->
        iterates (S k) U = Some U' ->
        solve U = Newton.Converged U' (S k))
  /\ ((forall j, j < 10 -> met_at U j = false) ->
      iterates 10 U <> None ->
      solve U = Newton.NewtonDivergence 10).
Proof.
  intros solve met_at iterates; unfold solve, Newton.solve.
  change (Newton.maximum_iterations Newton.solver_parameters) with 10%nat.
  split; [| split].
  - pose proof (iterate_bounded Vec residual_norm newton_update
                  Newton.solver_parameters 10 0 None U); lia.
  - intros k U' Hk Hbefore Hmet Hit.
    rewrite iterate_first.
    rewrite (iterate_stops_at_first _ _ _ _ (residual_norm U) k 10 0 U U' Hk Hbefore Hmet Hit).
    f_equal; lia.
  - intros Hnever Hall.
    rewrite iterate_first.
    exact (iterate_exhausts _ _ _ _ (residual_norm U) 10 0 U Hnever Hall).
Qed.

Lemma newton_solve_terminates_witness :
  Newton.met_at float PrimFloat.abs shrinking_update Newton.solver_parameters 1%float 0 = false
  /\ Newton.met_at float PrimFloat.abs shrinking_update Newton.solver_parameters 1%float 1 = false
  /\ Newton.met_at float PrimFloat.abs shrinking_update Newton.solver_parameters 1%float 2 = true
  /\ Newton.solve float PrimFloat.abs shrinking_update Newton.solver_parameters 1%float
     = Newton.Converged (1 / 1024 / 1024 / 1024)%float 3
  /\ Newton.solve float PrimFloat.abs idle_update Newton.solver_parameters 1%float
     = Newton.NewtonDivergence 10.
Proof.
  split; [vm_compute; reflexivity |].
  split; [vm_compute; reflexivity |].
  split; [vm_compute; reflexivity |].
  split.
  - apply (proj1 (proj2 (newton_solve_terminates float PrimFloat.abs
                           shrinking_update 1%float)) 2).
    + lia.
    + intros j Hj.
      destruct j as [| [| j]]; [vm_compute; reflexivity | vm_compute; reflexivity | lia].
    + vm_compute; reflexivity.
    + vm_compute; reflexivity.
  - apply (proj2 (proj2 (newton_solve_terminates float PrimFloat.abs
                           idle_update 1%float))).
    + intros j Hj.
      do 10 (destruct j as [| j]; [vm_compute; reflexivity |]); lia.
    + vm_compute; discriminate.
Defined.

(** ** The time loop *)

Section LoopFacts.

Import TimeLoop.

Variable Vec : Type.
Variable solver_solve : Vec -> Vec -> option Vec.

Local Abbreviation loop_body := (TimeLoop.loop_body Vec solver_solve).
Local Abbreviation time_loop := (TimeLoop.time_loop Vec solver_solve).

Lemma loop_body_converged (st : state Vec) (U' : Vec) :
  solver_solve (U st) (U st) = Some U' ->
  loop_body st
  = inl {| t := (t st + float_dt)%float; U := U'; U0 := U st;
           trace := trace st ++
             [Assigned (U st); Solved (t st + float_dt)%float U';
              Written p_file (t st + float_dt)%float U';
              Written s_file (t st + float_dt)%float U';
              Written u_file (t st + float_dt)%float U';
              Written data_file_time (t st + float_dt)%float U'] |}.
Proof. intros H; unfold TimeLoop.loop_body; rewrite H; reflexivity. Qed.

Lemma loop_body_raised (st : state Vec) :
  solver_solve (U st) (U st) = None ->
  loop_body st
  = inr ((t st + float_dt)%float,
         trace st ++ [Assigned (U st); Raised (t st + float_dt)%float]).
Proof. intros H; unfold TimeLoop.loop_body; rewrite H; reflexivity. Qed.

Lemma time_loop_trace (fuel : nat) :
  forall st,
    completed_steps (trace st) ->
    match time_loop fuel st with
    | Done st' | OutOfFuel st' => completed_steps (trace st')
    | Aborted t' tr =>
        exists tr' U0', completed_steps tr' /\ tr = tr' ++ [Assigned U0'; Raised t']
    end.
Proof.
  induction fuel as [| fuel IH]; intros st Hst; simpl; [exact Hst |].
  destruct (t st <? T)%float; [| exact Hst].
  destruct (solver_solve (U st) (U st)) as [U' |] eqn:Hs.
  - rewrite (loop_body_converged st U' Hs).
    apply IH; simpl. now apply one_more_step.
  - rewrite (loop_body_raised st Hs).
    exists (trace st), (U st); split; [exact Hst | reflexivity].
Qed.

Lemma steps_app (tr1 tr2 : list (event Vec)) :
  steps (tr1 ++ tr2) = steps tr1 + steps tr2.
Proof. unfold steps; rewrite filter_app, length_app; reflexivity. Qed.

Lemma solves_app (tr1 tr2 : list (event Vec)) :
  solves (tr1 ++ tr2) = solves tr1 + solves tr2.
Proof. unfold solves; rewrite filter_app, length_app; reflexivity. Qed.

Lemma writes_app (f : sink) (tr1 tr2 : list (event Vec)) :
  writes f (tr1 ++ tr2) = writes f tr1 + writes f tr2.
Proof. unfold writes; rewrite filter_app, length_app; reflexivity. Qed.

Lemma completed_steps_counts (tr : list (event Vec)) (f : sink) :
  completed_steps tr -> writes f tr = solves tr.
Proof.
  induction 1 as [| tr t' U0' U' _ IH]; [reflexivity |].
  rewrite writes_app, solves_app, IH; destruct f; reflexivity.
Qed.

Lemma time_loop_runs (n : nat) :
  forall fuel st,
    n < fuel ->
    (forall U0' U', solver_solve U0' U' <> None) ->
    (forall k, k < n -> (clock k (t st) <? T)%float = true) ->
    (clock n (t st) <? T)%float = false ->
    exists st',
      time_loop fuel st = Done st'
      /\ t st' = clock n (t st)
      /\ steps (trace st') = steps (trace st) + n.
Proof.
  induction n as [| n IH]; intros fuel st Hfuel Hok Hlt Hge;
    (destruct fuel as [| fuel]; [lia |]); simpl in *.
  - rewrite Hge; exists st; repeat split; lia.
  - assert (H0 : (t st <? T)%float = true) by (apply (Hlt 0); lia).
    rewrite H0.
    destruct (solver_solve (U st) (U st)) as [U' |] eqn:Hs;
      [| now elim (Hok (U st) (U st))].
    rewrite (loop_body_converged st U' Hs).
    match goal with |- context [time_loop fuel ?s] => set (st1 := s) end.
    destruct (IH fuel st1) as (st' & Hrun & Ht & Hsteps);
      [lia | exact Hok | intros k Hk; apply (Hlt (S k)); lia | exact Hge |].
    exists st'; split; [exact Hrun |]. split; [exact Ht |].
    rewrite Hsteps; unfold st1; simpl; rewrite steps_app.
    change (steps [Assigned (U st); _; _; _; _; _]) with 1; lia.
Qed.

(** C8.  In every run each completed pass through the loop body writes
    exactly once to each sink, after its solve has returned; a pass
    whose solve raises writes nothing and is the last one, the run
    ending there. *)
Theorem export_once_per_converged_step (fuel : nat) (zero : Vec) :
  let out := run Vec solver_solve fuel zero in
  match out with
  | Done st | OutOfFuel st => completed_steps (trace st)
  | Aborted t' tr =>
      exists tr' U0', completed_steps tr' /\ tr = tr' ++ [Assigned U0'; Raised t']
  end
  /\ (forall f, writes f (trace_of out) = solves (trace_of out)).
Proof.
  intros out.
  pose proof (time_loop_trace fuel
                {| t := 0; U := zero; U0 := zero; trace := [] |} no_step) as H.
  fold (run Vec solver_solve fuel zero) in H; fold out in H.
  split; [exact H |].
  intros f; destruct out as [st | t' tr | st]; simpl.
  - now apply completed_steps_counts.
  - destruct H as (tr' & U0' & Htr' & ->).
    rewrite writes_app, solves_app, (completed_steps_counts tr' f Htr').
    reflexivity.
  - now apply completed_steps_counts.
Qed.

Lemma clock_below_T_250 :
  forallb (fun k => (clock k 0 <? T)%float) (seq 0 251) = true.
Proof. vm_compute; reflexivity. Qed.

(** C6.  The clock accumulates rounding error: after 250 increments
    it is still below [T = 2.5], so when every solve succeeds the loop
    makes 251 passes and ends with [t = 2.5099999999999905]. *)
Theorem reference_run_takes_251_steps (fuel : nat) (zero : Vec) :
  (forall U0' U', solver_solve U0' U' <> None) ->
  251 < fuel ->
  exists st,
    run Vec solver_solve fuel zero = Done st
    /\ steps (trace st) = 251
    /\ t st = 2.5099999999999905%float
    /\ T = 2.5%float
    /\ clock 250 0 = 2.4999999999999907%float.
Proof.
  intros Hok Hfuel.
  destruct (time_loop_runs 251 fuel
              {| t := 0; U := zero; U0 := zero; trace := [] |} Hfuel Hok)
    as (st & Hrun & Ht & Hsteps).
  - intros k Hk.
    pose proof clock_below_T_250 as H.
    rewrite forallb_forall in H; apply H, in_seq; simpl; lia.
  - vm_compute; reflexivity.
  - exists st; split; [exact Hrun |].
    split; [exact Hsteps |].
    split; [rewrite Ht; vm_compute; reflexivity |].
    split; vm_compute; reflexivity.
Qed.

End LoopFacts.

Lemma reference_run_takes_251_steps_witness :
  (forall U0' U', trivial_solve U0' U' <> None)
  /\ 251 < 252
  /\ exists st,
       TimeLoop.run unit trivial_solve 252 tt = TimeLoop.Done st
       /\ TimeLoop.steps (TimeLoop.trace st) = 251
       /\ TimeLoop.t st = 2.5099999999999905%float
       /\ TimeLoop.T = 2.5%float
       /\ TimeLoop.clock 250 0 = 2.4999999999999907%float.
Proof.
  assert (Hok : forall U0' U', trivial_solve U0' U' <> None)
    by (intros U0' U'; discriminate).
  split; [exact Hok |].
  split; [lia |].
  exact (reference_run_takes_251_steps unit trivial_solve 252 tt Hok
           (Nat.lt_succ_diag_r 251)).
Defined.

(* ================================================================== *)
(** * Part IV: further properties of the script *)
(* ================================================================== *)

Open Scope R_scope.

(** ** Coefficient functions *)

Section MoreCoefficientFacts.

Variable mu_rel : R.
Hypothesis mu_rel_pos : 0 < mu_rel.

Lemma lmbdainv_den_lower (x : R) :
  (1 + mu_rel) * (1 / mu_rel * x ^ 2 + (1 - x) ^ 2) - 1
  = ((1 + mu_rel) * x - mu_rel) ^ 2 / mu_rel.
Proof. field; lra. Qed.

(** X1.  The inverse total mobility is bounded: for every real
    saturation [0 < lmbdainv(s) <= 1 + mu_rel], and the upper bound is
    reached exactly at [s = mu_rel/(1 + mu_rel)]. *)
Theorem lmbdainv_bounded
  (env : point_data) (sd : side) (e : expr) (x : R) :
  eval env sd e = Some x ->
  exists v,
    eval_built env sd (lmbdainv mu_rel e) = Some v
    /\ 0 < v <= 1 + mu_rel
    /\ (v = 1 + mu_rel <-> x = mu_rel / (1 + mu_rel)).
Proof.
  intros He.
  exists (1 / (1 / mu_rel * x ^ 2 + (1 - x) ^ 2)).
  split; [exact (eval_lmbdainv mu_rel mu_rel_pos env sd e x He) |].
  pose proof (lmbdainv_den_pos mu_rel mu_rel_pos x) as Hg.
  pose proof (lmbdainv_den_lower x) as Hlow.
  set (g := 1 / mu_rel * x ^ 2 + (1 - x) ^ 2) in *.
  set (d := (1 + mu_rel) * x - mu_rel) in *.
  assert (Hd : 0 <= d ^ 2 / mu_rel)
    by (apply div_nonneg; [apply sq_nonneg | exact mu_rel_pos]).
  assert (Hv : 1 / g * g = 1) by (field; lra).
  assert (Hpos : 0 < 1 / g) by (apply Rdiv_lt_0_compat; lra).
  split; [split; [exact Hpos | nra] |].
  split.
  - intros E.
    assert (Hz : d ^ 2 / mu_rel = 0) by (rewrite <- Hlow; rewrite <- E; lra).
    assert (Hd2 : d ^ 2 = 0).
    { replace (d ^ 2) with (d ^ 2 / mu_rel * mu_rel) by (field; lra).
      rewrite Hz; ring. }
    assert (Hd0 : d = 0).
    { destruct (Req_dec_T d 0) as [E0 | N]; [exact E0 |].
      pose proof (sq_pos d N); lra. }
    unfold d in Hd0.
    apply (Rmult_eq_reg_l (1 + mu_rel)); [| lra].
    replace ((1 + mu_rel) * (mu_rel / (1 + mu_rel))) with mu_rel by (field; lra).
    lra.
  - intros E.
    assert (Hd0 : d = 0) by (unfold d; rewrite E; field; lra).
    rewrite Hd0 in Hlow.
    replace (0 ^ 2 / mu_rel) with 0 in Hlow by (field; lra).
    apply (Rmult_eq_reg_r g); [| lra].
    rewrite Hv; lra.
Qed.

(** X2.  [F] stays in [[0,1]] at every real saturation, also outside
    [[0,1]]; it is [0] only at [s = 0] and [1] only at [s = 1]. *)
Theorem F_range_everywhere
  (env : point_data) (sd : side) (e : expr) (x : R) :
  eval env sd e = Some x ->
  exists f,
    eval env sd (F mu_rel e) = Some f
    /\ 0 <= f <= 1
    /\ (f = 0 <-> x = 0)
    /\ (f = 1 <-> x = 1).
Proof.
  intros He.
  exists (x ^ 2 / (x ^ 2 + mu_rel * (1 - x) ^ 2)).
  split; [exact (eval_F mu_rel mu_rel_pos env sd e x He) |].
  split; [exact (F_value_range mu_rel mu_rel_pos x) |].
  pose proof (F_den_pos mu_rel mu_rel_pos x) as HD.
  set (D := x ^ 2 + mu_rel * (1 - x) ^ 2) in *.
  assert (Hf : x ^ 2 / D * D = x ^ 2) by (field; lra).
  split; split.
  - intros E; rewrite E in Hf.
    destruct (Req_dec_T x 0) as [E0 | N]; [exact E0 |].
    pose proof (sq_pos x N); lra.
  - intros ->. unfold Rdiv; ring.
  - intros E; rewrite E in Hf.
    assert (Hm : mu_rel * (1 - x) ^ 2 = 0) by (unfold D in Hf; lra).
    destruct (Req_dec_T (1 - x) 0) as [E0 | N]; [lra |].
    pose proof (Rmult_lt_0_compat _ _ mu_rel_pos (sq_pos (1 - x) N)); lra.
  - intros E. unfold D; rewrite E; field; lra.
Qed.

(** X3.  The two phases share the flux: [1 - F(s)] is the same
    function with the inverse viscosity ratio at the complementary
    saturation, [F_{mu_rel}(s) + F_{1/mu_rel}(1 - s) = 1]. *)
Theorem F_phase_symmetry
  (env : point_data) (sd : side) (e : expr) (x : R) :
  eval env sd e = Some x ->
  exists f g,
    eval env sd (F mu_rel e) = Some f
    /\ eval env sd (F (1 / mu_rel) (Sub (Const 1) e)) = Some g
    /\ f + g = 1.
Proof.
  intros He.
  assert (Hinv : 0 < 1 / mu_rel) by (apply Rdiv_lt_0_compat; lra).
  assert (He' : eval env sd (Sub (Const 1) e) = Some (1 - x))
    by (apply eval_sub; [reflexivity | exact He]).
  eexists _, _.
  split; [exact (eval_F mu_rel mu_rel_pos env sd e x He) |].
  split; [exact (eval_F (1 / mu_rel) Hinv env sd _ _ He') |].
  pose proof (F_den_pos mu_rel mu_rel_pos x) as H1.
  pose proof (F_den_pos (1 / mu_rel) Hinv (1 - x)) as H2.
  field; split; [lra |].
  pose proof (Rmult_lt_0_compat _ _ H2 mu_rel_pos) as H3.
  replace (((1 - x) ^ 2 + 1 / mu_rel * (1 - (1 - x)) ^ 2) * mu_rel)
    with ((1 - x) ^ 2 * mu_rel + (1 - (1 - x)) ^ 2) in H3 by (field; lra).
  lra.
Qed.

(** X4.  On [[0,1]] the fractional flow is strictly increasing. *)
Theorem F_strictly_increasing
  (env : point_data) (sd : side) (e1 e2 : expr) (a b : R) :
  eval env sd e1 = Some a -> eval env sd e2 = Some b ->
  0 <= a -> a < b -> b <= 1 ->
  exists fa fb,
    eval env sd (F mu_rel e1) = Some fa
    /\ eval env sd (F mu_rel e2) = Some fb
    /\ fa < fb.
Proof.
  intros H1 H2 Ha Hab Hb.
  eexists _, _.
  split; [exact (eval_F mu_rel mu_rel_pos env sd e1 a H1) |].
  split; [exact (eval_F mu_rel mu_rel_pos env sd e2 b H2) |].
  pose proof (F_den_pos mu_rel mu_rel_pos a) as Hda.
  pose proof (F_den_pos mu_rel mu_rel_pos b) as Hdb.
  set (Da := a ^ 2 + mu_rel * (1 - a) ^ 2) in *.
  set (Db := b ^ 2 + mu_rel * (1 - b) ^ 2) in *.
  assert (Hcross : a ^ 2 * Db < b ^ 2 * Da).
  { unfold Da, Db.
    set (p := a * (1 - b)). set (q := b * (1 - a)).
    assert (Hp : 0 <= p) by (apply Rmult_le_pos; lra).
    assert (Hpq : p < q) by (unfold p, q; lra).
    assert (Hsq : p ^ 2 < q ^ 2).
    { replace (q ^ 2) with (p ^ 2 + (q - p) * (q + p)) by ring.
      assert (0 < (q - p) * (q + p)) by (apply Rmult_lt_0_compat; lra).
      lra. }
    assert (Hm : mu_rel * p ^ 2 < mu_rel * q ^ 2)
      by (apply Rmult_lt_compat_l; lra).
    replace (a ^ 2 * (b ^ 2 + mu_rel * (1 - b) ^ 2))
      with (a ^ 2 * b ^ 2 + mu_rel * p ^ 2) by (unfold p; ring).
    replace (b ^ 2 * (a ^ 2 + mu_rel * (1 - a) ^ 2))
      with (a ^ 2 * b ^ 2 + mu_rel * q ^ 2) by (unfold q; ring).
    lra. }
  assert (Hq : 0 < (b ^ 2 * Da - a ^ 2 * Db) / (Da * Db))
    by (apply Rdiv_lt_0_compat; [lra | now apply Rmult_lt_0_compat]).
  replace ((b ^ 2 * Da - a ^ 2 * Db) / (Da * Db))
    with (b ^ 2 / Db - a ^ 2 / Da) in Hq by (field; lra).
  lra.
Qed.

End MoreCoefficientFacts.

Lemma lmbdainv_bounded_witness :
  0 < mu_rel_run
  /\ eval (constant_point 0.5) Plus s = Some 0.5
  /\ exists v,
       eval_built (constant_point 0.5) Plus (lmbdainv mu_rel_run s) = Some v
       /\ 0 < v <= 1 + mu_rel_run
       /\ (v = 1 + mu_rel_run <-> 0.5 = mu_rel_run / (1 + mu_rel_run)).
Proof.
  split; [exact mu_rel_run_pos |].
  split; [reflexivity |].
  exact (lmbdainv_bounded mu_rel_run mu_rel_run_pos
           (constant_point 0.5) Plus s 0.5 eq_refl).
Defined.

Lemma F_range_everywhere_witness :
  0 < mu_rel_run
  /\ eval (constant_point (-3)) Plus s = Some (-3)
  /\ exists f,
       eval (constant_point (-3)) Plus (F mu_rel_run s) = Some f
       /\ 0 <= f <= 1
       /\ (f = 0 <-> -3 = 0)
       /\ (f = 1 <-> -3 = 1).
Proof.
  split; [exact mu_rel_run_pos |].
  split; [reflexivity |].
  exact (F_range_everywhere mu_rel_run mu_rel_run_pos
           (constant_point (-3)) Plus s (-3) eq_refl).
Defined.

Lemma F_phase_symmetry_witness :
  0 < mu_rel_run
  /\ eval (constant_point 0.25) Plus s = Some 0.25
  /\ exists f g,
       eval (constant_point 0.25) Plus (F mu_rel_run s) = Some f
       /\ eval (constant_point 0.25) Plus
            (F (1 / mu_rel_run) (Sub (Const 1) s)) = Some g
       /\ f + g = 1.
Proof.
  split; [exact mu_rel_run_pos |].
  split; [reflexivity |].
  exact (F_phase_symmetry mu_rel_run mu_rel_run_pos
           (constant_point 0.25) Plus s 0.25 eq_refl).
Defined.

Lemma F_strictly_increasing_witness :
  0 < mu_rel_run
  /\ exists fa fb,
       eval (constant_point 0) Plus (F mu_rel_run (Const 0.25)) = Some fa
       /\ eval (constant_point 0) Plus (F mu_rel_run (Const 0.75)) = Some fb
       /\ fa < fb.
Proof.
  split; [exact mu_rel_run_pos |].
  apply (F_strictly_increasing mu_rel_run mu_rel_run_pos (constant_point 0) Plus
           (Const 0.25) (Const 0.75) 0.25 0.75 eq_refl eq_refl); lra.
Defined.

Lemma eval_div_by_zero (env : point_data) (sd : side) (a b : expr) (x : R) :
  eval env sd a = Some x -> eval env sd b = Some 0 ->
  eval env sd (Div a b) = None.
Proof.
  intros Ha Hb; simpl; rewrite Ha, Hb; simpl.
  destruct (Req_dec_T 0 0) as [_ | N]; [reflexivity | now elim N].
Qed.

(** X5.  The sign condition on [mu_rel] is needed: for every
    [mu_rel <= 0] there is a saturation at which neither coefficient has
    a value, [lmbdainv] failing already while it is built when
    [mu_rel = 0]. *)
Theorem coefficients_need_positive_mu_rel
  (mu_rel : R) (env : point_data) (sd : side) :
  mu_rel <= 0 ->
  exists x,
    eval env sd (F mu_rel (Const x)) = None
    /\ eval_built env sd (lmbdainv mu_rel (Const x)) = None
    /\ (mu_rel = 0 -> forall e, lmbdainv mu_rel e = None).
Proof.
  intros Hm.
  set (q := R_sqrt.sqrt (- mu_rel)).
  assert (Hq : 0 <= q) by apply sqrt_pos.
  assert (Hqq : q * q = - mu_rel) by (apply sqrt_sqrt; lra).
  exists (q / (1 + q)).
  assert (HF : (q / (1 + q)) ^ 2 + mu_rel * (1 - q / (1 + q)) ^ 2 = 0).
  { replace ((q / (1 + q)) ^ 2 + mu_rel * (1 - q / (1 + q)) ^ 2)
      with ((q * q + mu_rel) / (1 + q) ^ 2) by (field; lra).
    rewrite Hqq; unfold Rdiv; ring. }
  split; [| split].
  - unfold F; apply eval_div_by_zero with (x := (q / (1 + q)) ^ 2);
      [reflexivity |].
    rewrite (eval_F_den mu_rel env sd (Const (q / (1 + q))) _ eq_refl).
    f_equal; exact HF.
  - unfold lmbdainv, py_div.
    destruct (Req_dec_T mu_rel 0) as [E | N]; [reflexivity |].
    cbn [bind eval_built].
    apply eval_div_by_zero with (x := 1); [reflexivity |].
    rewrite (eval_lmbdainv_den mu_rel env sd (Const (q / (1 + q))) _ eq_refl).
    f_equal.
    replace (1 / mu_rel * (q / (1 + q)) ^ 2 + (1 - q / (1 + q)) ^ 2)
      with (((q / (1 + q)) ^ 2 + mu_rel * (1 - q / (1 + q)) ^ 2) / mu_rel)
      by (field; lra).
    rewrite HF; unfold Rdiv; ring.
  - intros E e; unfold lmbdainv, py_div.
    destruct (Req_dec_T mu_rel 0) as [_ | N]; [reflexivity | contradiction].
Qed.

Lemma coefficients_need_positive_mu_rel_witness :
  -1 <= 0
  /\ exists x,
       eval (constant_point 0) Plus (F (-1) (Const x)) = None
       /\ eval_built (constant_point 0) Plus (lmbdainv (-1) (Const x)) = None
       /\ (-1 = 0 -> forall e, lmbdainv (-1) e = None).
Proof.
  assert (H : -1 <= 0) by lra.
  split; [exact H |].
  exact (coefficients_need_positive_mu_rel (-1) (constant_point 0) Plus H).
Defined.

(** ** Upwind fluxes on facets *)

(** X6.  The two upwind velocities split the normal velocity: they add
    up to [u0·n], their product is zero, and [un_h <= 0 <= un]. *)
Theorem upwind_split_partition (env : point_data) (sd : side) :
  exists p m,
    eval env sd un = Some p
    /\ eval env sd un_h = Some m
    /\ p + m = normal_velocity env sd
    /\ p * m = 0
    /\ m <= 0 <= p.
Proof.
  eexists _, _.
  split; [apply eval_un |]. split; [apply eval_un_h |].
  set (w := normal_velocity env sd).
  unfold Rabs; destruct (Rcase_abs w) as [Hneg | Hpos].
  - split; [lra |]. split; [| lra].
    replace (0.5 * (w + - w)) with 0 by lra; ring.
  - split; [lra |]. split; [| lra].
    replace (0.5 * (w - w)) with 0 by lra; ring.
Qed.

Section FacetFluxes.

Variable mu_rel : R.
Hypothesis mu_rel_pos : 0 < mu_rel.

(** The value of the interior-facet integrand of the stabilisation. *)
Lemma eval_interior_integrand (env : point_data) (I : integral) :
  nth_error (stabilisation mu_rel) 0 = Some I ->
  eval env Plus (integrand I)
  = Some (env Plus dt_
          * ((env Plus r_ - env Minus r_)
             * (0.5 * (normal_velocity env Plus + Rabs (normal_velocity env Plus))
                * F_value mu_rel (s_mid_value env Plus)
                - 0.5 * (normal_velocity env Minus + Rabs (normal_velocity env Minus))
                  * F_value mu_rel (s_mid_value env Minus)))).
Proof.
  intros HI; injection HI as <-.
  cbn [integrand]; unfold inner_scalar, jump.
  apply eval_mul; [reflexivity |].
  apply eval_mul; [reflexivity |].
  apply eval_sub; apply eval_mul.
  - exact (eval_un env Plus).
  - exact (eval_F mu_rel mu_rel_pos env Plus _ _ (eval_s_mid env Plus)).
  - exact (eval_un env Minus).
  - exact (eval_F mu_rel mu_rel_pos env Minus _ _ (eval_s_mid env Minus)).
Qed.

(** X7.  On an interior facet across which the normal velocity is
    continuous ([u0·n] on the ['-'] side is minus that on the ['+'] side),
    the stabilisation flux is the normal velocity times [F(s_mid)] taken
    from the cell the flow leaves: the ['+'] cell when [u0·n >= 0] there,
    the ['-'] cell otherwise. *)
Theorem interior_flux_takes_donor_cell (env : point_data) (I : integral) :
  normal_velocity env Minus = - normal_velocity env Plus ->
  nth_error (stabilisation mu_rel) 0 = Some I ->
  eval env Plus (integrand I)
  = Some (env Plus dt_
          * ((env Plus r_ - env Minus r_)
             * (normal_velocity env Plus
                * F_value mu_rel
                    (s_mid_value env
                       (if Rle_dec 0 (normal_velocity env Plus)
                        then Plus else Minus))))).
Proof.
  intros Hcont HI.
  rewrite (eval_interior_integrand env I HI), Hcont.
  set (w := normal_velocity env Plus).
  f_equal.
  destruct (Rle_dec 0 w) as [Hpos | Hneg].
  - rewrite (Rabs_pos_eq w Hpos), Rabs_Ropp, (Rabs_pos_eq w Hpos).
    replace (0.5 * (- w + w)) with 0 by lra.
    replace (0.5 * (w + w)) with w by lra. ring.
  - assert (Hlt : w < 0) by lra.
    rewrite Rabs_Ropp, (Rabs_left w Hlt).
    replace (0.5 * (w + - w)) with 0 by lra.
    replace (0.5 * (- w + - w)) with (- w) by lra. ring.
Qed.

(** X8.  Exchanging the labels ['+'] and ['-'] of the two cells of an
    interior facet does not change the stabilisation integrand (the time
    step being the same constant on both sides). *)
Theorem interior_flux_label_independent (env : point_data) (I : integral) :
  env Plus dt_ = env Minus dt_ ->
  nth_error (stabilisation mu_rel) 0 = Some I ->
  eval (swap_sides env) Plus (integrand I) = eval env Plus (integrand I).
Proof.
  intros Hdt HI.
  rewrite (eval_interior_integrand env I HI).
  rewrite (eval_interior_integrand (swap_sides env) I HI).
  change (normal_velocity (swap_sides env) Plus) with (normal_velocity env Minus).
  change (normal_velocity (swap_sides env) Minus) with (normal_velocity env Plus).
  change (s_mid_value (swap_sides env) Plus) with (s_mid_value env Minus).
  change (s_mid_value (swap_sides env) Minus) with (s_mid_value env Plus).
  change (swap_sides env Plus dt_) with (env Minus dt_).
  change (swap_sides env Plus r_) with (env Minus r_).
  change (swap_sides env Minus r_) with (env Plus r_).
  rewrite Hdt; f_equal; ring.
Qed.

Lemma eval_inflow_integrand (env : point_data) (I : integral) :
  nth_error (stabilisation mu_rel) 1 = Some I ->
  eval env Plus (integrand I)
  = Some (env Plus dt_ * env Plus r_
          * (0.5 * (normal_velocity env Plus - Rabs (normal_velocity env Plus)))
          * env Plus sbar_).
Proof.
  intros HI; injection HI as <-; cbn [integrand].
  apply eval_mul; [| reflexivity].
  apply eval_mul; [reflexivity | exact (eval_un_h env Plus)].
Qed.

Lemma eval_outflow_integrand (env : point_data) (I : integral) :
  nth_error (outflow mu_rel) 0 = Some I ->
  eval env Plus (integrand I)
  = Some (env Plus dt_ * env Plus r_
          * F_value mu_rel (s_mid_value env Plus)
          * (0.5 * (normal_velocity env Plus + Rabs (normal_velocity env Plus)))).
Proof.
  intros HI; injection HI as <-; cbn [integrand].
  apply eval_mul; [| exact (eval_un env Plus)].
  apply eval_mul; [reflexivity |].
  exact (eval_F mu_rel mu_rel_pos env Plus _ _ (eval_s_mid env Plus)).
Qed.

(** X9.  On an exterior facet exactly one of the two boundary terms of
    the saturation equation acts: where the flow leaves ([u0·n >= 0]) the
    outflow term is [dt·r·F(s_mid)·u0·n] and the inflow term is zero;
    where it enters ([u0·n <= 0]) the outflow term is zero and the inflow
    term is [dt·r·u0·n·sbar]. *)
Theorem boundary_terms_by_flow_direction
  (env : point_data) (Iin Iout : integral) :
  nth_error (stabilisation mu_rel) 1 = Some Iin ->
  nth_error (outflow mu_rel) 0 = Some Iout ->
  exists vin vout,
    eval env Plus (integrand Iin) = Some vin
    /\ eval env Plus (integrand Iout) = Some vout
    /\ (0 <= normal_velocity env Plus ->
        vin = 0
        /\ vout = env Plus dt_ * env Plus r_
                  * F_value mu_rel (s_mid_value env Plus)
                  * normal_velocity env Plus)
    /\ (normal_velocity env Plus <= 0 ->
        vout = 0
        /\ vin = env Plus dt_ * env Plus r_ * normal_velocity env Plus
                 * env Plus sbar_).
Proof.
  intros Hin Hout.
  eexists _, _.
  split; [exact (eval_inflow_integrand env Iin Hin) |].
  split; [exact (eval_outflow_integrand env Iout Hout) |].
  set (w := normal_velocity env Plus).
  split; intros Hw.
  - rewrite (Rabs_pos_eq w Hw).
    replace (0.5 * (w - w)) with 0 by lra.
    replace (0.5 * (w + w)) with w by lra.
    split; [ring | reflexivity].
  - destruct (Req_dec_T w 0) as [E | N].
    + rewrite E, Rabs_R0.
      replace (0.5 * (0 + 0)) with 0 by lra.
      replace (0.5 * (0 - 0)) with 0 by lra.
      split; ring.
    + assert (Hlt : w < 0) by lra.
      rewrite (Rabs_left w Hlt).
      replace (0.5 * (w + - w)) with 0 by lra.
      replace (0.5 * (w - - w)) with w by lra.
      split; [ring | reflexivity].
Qed.

Lemma quadrature_defined (rule : list (R * point_data)) (e : expr) :
  (forall env, exists v, eval env Plus e = Some v) ->
  exists v, quadrature rule e = Some v.
Proof.
  intros He; induction rule as [| [w env] rule [acc IH]]; [now exists 0 |].
  destruct (He env) as [x Hx].
  exists (w * x + acc); simpl; rewrite Hx, IH; reflexivity.
Qed.

(** X10.  The facet terms always have a value: whatever the state and
    the quadrature rule, no integral of the stabilisation or of the
    outflow term divides by zero or takes the root of a negative
    number. *)
Theorem facet_terms_always_defined
  (rule : list (R * point_data)) (I : integral) :
  In I (stabilisation mu_rel ++ outflow mu_rel) ->
  exists v, quadrature rule (integrand I) = Some v.
Proof.
  intros HI; apply quadrature_defined; intros env.
  destruct HI as [<- | [<- | [<- | []]]].
  - eexists; exact (eval_interior_integrand env _ eq_refl).
  - eexists; exact (eval_inflow_integrand env _ eq_refl).
  - eexists; exact (eval_outflow_integrand env _ eq_refl).
Qed.

End FacetFluxes.

Lemma interior_flux_takes_donor_cell_witness :
  0 < mu_rel_run
  /\ normal_velocity crossing_point Minus = - normal_velocity crossing_point Plus
  /\ eval crossing_point Plus (integrand (interior_term mu_rel_run))
     = Some (crossing_point Plus dt_
             * ((crossing_point Plus r_ - crossing_point Minus r_)
                * (normal_velocity crossing_point Plus
                   * F_value mu_rel_run
                       (s_mid_value crossing_point
                          (if Rle_dec 0 (normal_velocity crossing_point Plus)
                           then Plus else Minus))))).
Proof.
  assert (Hc : normal_velocity crossing_point Minus
               = - normal_velocity crossing_point Plus)
    by (unfold normal_velocity, crossing_point; lra).
  split; [exact mu_rel_run_pos |].
  split; [exact Hc |].
  exact (interior_flux_takes_donor_cell mu_rel_run mu_rel_run_pos
           crossing_point (interior_term mu_rel_run) Hc eq_refl).
Defined.

Lemma interior_flux_label_independent_witness :
  0 < mu_rel_run
  /\ crossing_point Plus dt_ = crossing_point Minus dt_
  /\ eval (swap_sides crossing_point) Plus (integrand (interior_term mu_rel_run))
     = eval crossing_point Plus (integrand (interior_term mu_rel_run)).
Proof.
  split; [exact mu_rel_run_pos |].
  split; [reflexivity |].
  exact (interior_flux_label_independent mu_rel_run mu_rel_run_pos
           crossing_point (interior_term mu_rel_run) eq_refl eq_refl).
Defined.

Lemma boundary_terms_by_flow_direction_witness :
  0 < mu_rel_run
  /\ exists vin vout,
       eval crossing_point Plus (integrand (inflow_term mu_rel_run)) = Some vin
       /\ eval crossing_point Plus (integrand (outflow_term mu_rel_run)) = Some vout
       /\ vin = 0
       /\ vout = crossing_point Plus dt_ * crossing_point Plus r_
                 * F_value mu_rel_run (s_mid_value crossing_point Plus)
                 * normal_velocity crossing_point Plus.
Proof.
  split; [exact mu_rel_run_pos |].
  destruct (boundary_terms_by_flow_direction mu_rel_run mu_rel_run_pos
              crossing_point (inflow_term mu_rel_run) (outflow_term mu_rel_run)
              eq_refl eq_refl) as (vin & vout & Hin & Hout & Hpos & _).
  exists vin, vout.
  split; [exact Hin |]. split; [exact Hout |].
  apply Hpos; unfold normal_velocity, crossing_point; lra.
Defined.

Lemma facet_terms_always_defined_witness :
  0 < mu_rel_run
  /\ In (interior_term mu_rel_run) (stabilisation mu_rel_run ++ outflow mu_rel_run)
  /\ exists v,
       quadrature [(0.5, crossing_point); (0.5, constant_point 1)]
         (integrand (interior_term mu_rel_run)) = Some v.
Proof.
  assert (HI : In (interior_term mu_rel_run)
                 (stabilisation mu_rel_run ++ outflow mu_rel_run))
    by (left; reflexivity).
  split; [exact mu_rel_run_pos |].
  split; [exact HI |].
  exact (facet_terms_always_defined mu_rel_run mu_rel_run_pos _ _ HI).
Defined.

(** ** Permeability *)

Lemma exp_le (a b : R) : a <= b -> exp a <= exp b.
Proof.
  intros [H | ->]; [left; now apply exp_increasing | right; reflexivity].
Qed.

Lemma exp_le_inv (a b : R) : exp a <= exp b -> a <= b.
Proof.
  intros H; destruct (Rle_dec a b) as [Hab | N]; [exact Hab |].
  assert (Hlt : exp b < exp a) by (apply exp_increasing; lra); lra.
Qed.

Lemma kinv_divisor_off_centre (x0 x1 : R) :
  Permeability.kinv_divisor x0 x1
  = Rmax (exp (- ((off_centre x0 x1 / 0.1) ^ 2))) 0.01.
Proof. reflexivity. Qed.

Lemma kinv_divisor_bounds (x0 x1 : R) :
  0.01 <= Permeability.kinv_divisor x0 x1 <= 1.
Proof.
  rewrite kinv_divisor_off_centre; split; [apply Rmax_r |].
  apply Rmax_lub; [| lra].
  rewrite <- exp_0; apply exp_le.
  pose proof (sq_nonneg (off_centre x0 x1 / 0.1)); lra.
Qed.

Lemma kinv_times_divisor (x0 x1 : R) :
  Permeability.kinv x0 x1 * Permeability.kinv_divisor x0 x1 = 1.
Proof.
  pose proof (kinv_divisor_bounds x0 x1).
  unfold Permeability.kinv; field; lra.
Qed.

(** X11.  The inverse permeability never divides by zero and is
    bounded: its divisor lies in [[0.01, 1]], so [1 <= kinv <= 100] at
    every position. *)
Theorem kinv_bounded (x0 x1 : R) :
  0.01 <= Permeability.kinv_divisor x0 x1 <= 1
  /\ 1 <= Permeability.kinv x0 x1 <= 100.
Proof.
  pose proof (kinv_divisor_bounds x0 x1) as Hd.
  pose proof (kinv_times_divisor x0 x1) as Hk.
  split; [exact Hd |].
  set (k := Permeability.kinv x0 x1) in *.
  set (d := Permeability.kinv_divisor x0 x1) in *.
  assert (Hkpos : 0 < k) by (unfold k, Permeability.kinv; apply Rdiv_lt_0_compat; fold d; lra).
  split; nra.
Qed.

(** X12.  The matrix [Kinv] is [kinv] times the identity: symmetric,
    and its quadratic form lies between [|v|²] and [100·|v|²]. *)
Theorem Kinv_symmetric_positive_definite (x0 x1 : R) (v : R * R) :
  snd (fst (Permeability.Kinv x0 x1)) = fst (snd (Permeability.Kinv x0 x1))
  /\ matvec (Permeability.Kinv x0 x1) v
     = (Permeability.kinv x0 x1 * fst v + 0 * snd v,
        0 * fst v + Permeability.kinv x0 x1 * snd v)
  /\ fst v ^ 2 + snd v ^ 2
     <= quadratic_form (Permeability.Kinv x0 x1) v
     <= 100 * (fst v ^ 2 + snd v ^ 2).
Proof.
  split; [reflexivity |]. split; [reflexivity |].
  destruct (kinv_bounded x0 x1) as (_ & Hk1 & Hk2).
  unfold quadratic_form, matvec, Permeability.Kinv, Permeability.zero; simpl fst; simpl snd.
  set (k := Permeability.kinv x0 x1) in *.
  destruct v as [a b]; simpl fst; simpl snd.
  pose proof (sq_nonneg a) as Ha. pose proof (sq_nonneg b) as Hb.
  replace (a * (k * a + 0 * b) + b * (0 * a + k * b))
    with (k * (a ^ 2 + b ^ 2)) by ring.
  split; nra.
Qed.

(** X13.  Where the extremes are reached: [kinv = 1] exactly on the
    centre line [x1 = 0.5 + 0.1·sin(10·x0)] of the channel, and
    [kinv = 100], the cap, exactly where the scaled distance from it
    satisfies [((x1 - 0.5 - 0.1·sin(10·x0))/0.1)² >= ln 100]. *)
Theorem kinv_extremes (x0 x1 : R) :
  (Permeability.kinv x0 x1 = 1 <-> off_centre x0 x1 = 0)
  /\ (Permeability.kinv x0 x1 = 100
      <-> ln 100 <= (off_centre x0 x1 / 0.1) ^ 2).
Proof.
  pose proof (kinv_times_divisor x0 x1) as Hk.
  pose proof (kinv_divisor_bounds x0 x1) as Hd.
  pose proof (kinv_divisor_off_centre x0 x1) as Hz.
  set (z := off_centre x0 x1 / 0.1) in *.
  assert (Hln : ln 0.01 = - ln 100).
  { replace 0.01 with (/ 100) by lra. apply ln_Rinv; lra. }
  assert (Hexp : exp (ln 0.01) = 0.01) by (apply exp_ln; lra).
  split; split.
  - intros E; rewrite E in Hk.
    assert (Hd1 : Rmax (exp (- z ^ 2)) 0.01 = 1) by (rewrite <- Hz; lra).
    assert (He : exp (- z ^ 2) = 1).
    { unfold Rmax in Hd1; destruct (Rle_dec (exp (- z ^ 2)) 0.01); lra. }
    rewrite <- exp_0 in He; apply exp_inv in He.
    assert (Hz0 : z = 0).
    { destruct (Req_dec_T z 0) as [E0 | N]; [exact E0 |].
      pose proof (sq_pos z N); lra. }
    unfold z in Hz0.
    replace (off_centre x0 x1) with (off_centre x0 x1 / 0.1 * 0.1) by (field; lra).
    rewrite Hz0; ring.
  - intros E.
    assert (Hz0 : z = 0) by (unfold z; rewrite E; field; lra).
    rewrite Hz0 in Hz.
    replace (- 0 ^ 2) with 0 in Hz by ring.
    rewrite exp_0, Rmax_left in Hz by lra.
    rewrite Hz in Hk; lra.
  - intros E; rewrite E in Hk.
    assert (Hd1 : Rmax (exp (- z ^ 2)) 0.01 = 0.01) by (rewrite <- Hz; lra).
    assert (He : exp (- z ^ 2) <= exp (ln 0.01)).
    { rewrite Hexp, <- Hd1 at 1; apply Rmax_l. }
    apply exp_le_inv in He; lra.
  - intros E.
    assert (He : exp (- z ^ 2) <= 0.01).
    { rewrite <- Hexp; apply exp_le; lra. }
    rewrite Rmax_right in Hz by exact He.
    rewrite Hz in Hk; lra.
Qed.

(** ** Boundary expressions *)

(** X14.  When the evaluators raise: [PressureBC.eval] exactly when
    the position or the output array is empty; [SaturationBC.eval] when
    the position is empty, or when the output array is empty at a position
    with [x[0] < DOLFIN_EPS]; away from that side an empty output array
    goes unnoticed. *)
Theorem boundary_evaluators_raise_on_empty (eps : R) (values x : list R) :
  (BC.PressureBC_eval values x = None <-> x = [] \/ values = [])
  /\ (BC.SaturationBC_eval eps values x = None
      <-> x = [] \/ (values = [] /\ exists x0 xs, x = x0 :: xs /\ x0 < eps)).
Proof.
  unfold BC.PressureBC_eval, BC.SaturationBC_eval.
  destruct x as [| x0 xs]; simpl.
  - split; split; auto.
  - split.
    + destruct values as [| v vs]; simpl; split.
      * intros _; right; reflexivity.
      * reflexivity.
      * discriminate.
      * intros [H | H]; discriminate.
    + destruct (Rlt_dec x0 eps) as [Hlt | Hge].
      * destruct values as [| v vs]; simpl; split.
        -- intros _; right; split; [reflexivity |]; now exists x0, xs.
        -- reflexivity.
        -- discriminate.
        -- intros [H | [H _]]; discriminate.
      * split; [discriminate |].
        intros [H | [_ (y0 & ys & E & Hy)]]; [discriminate |].
        injection E as -> _; contradiction.
Qed.

(** X15.  On an array whose slot 0 holds zero, [SaturationBC.eval]
    returns the indicator of the inflow side: [1] where
    [x[0] < DOLFIN_EPS], [0] elsewhere, the other slots unchanged. *)
Theorem SaturationBC_on_zeroed_array (eps x0 : R) (vs xs : list R) :
  BC.SaturationBC_eval eps (0 :: vs) (x0 :: xs)
  = Some ((if Rlt_dec x0 eps then 1 else 0) :: vs).
Proof.
  unfold BC.SaturationBC_eval; simpl.
  destruct (Rlt_dec x0 eps); reflexivity.
Qed.

(** X16.  [SaturationBC.eval] never resets the array: evaluating at a
    position on the inflow side and then, with the same array, at a
    position off it leaves [1] in slot 0; and evaluating twice at one
    position gives what evaluating once gives. *)
Theorem SaturationBC_value_carries_over
  (eps x0 y0 v : R) (vs xs ys : list R) :
  x0 < eps -> eps <= y0 ->
  (values' <- BC.SaturationBC_eval eps (v :: vs) (x0 :: xs) ;;
   BC.SaturationBC_eval eps values' (y0 :: ys)) = Some (1 :: vs)
  /\ (forall x values,
        (values' <- BC.SaturationBC_eval eps values x ;;
         BC.SaturationBC_eval eps values' x)
        = BC.SaturationBC_eval eps values x).
Proof.
  intros Hx Hy; split.
  - rewrite (SaturationBC_inflow eps x0 v xs vs Hx); cbn [bind].
    exact (SaturationBC_elsewhere eps y0 ys (1 :: vs) Hy).
  - intros x values; unfold BC.SaturationBC_eval.
    destruct x as [| z zs]; [reflexivity |]; simpl.
    destruct (Rlt_dec z eps) as [Hz | Hz].
    + destruct values as [| w ws]; [reflexivity |]; simpl.
      destruct (Rlt_dec z eps); [reflexivity | contradiction].
    + simpl. destruct (Rlt_dec z eps); [contradiction | reflexivity].
Qed.

Lemma SaturationBC_value_carries_over_witness :
  0 < DOLFIN_EPS_run
  /\ DOLFIN_EPS_run <= 1
  /\ (values' <- BC.SaturationBC_eval DOLFIN_EPS_run [0] [0; 0.5] ;;
      BC.SaturationBC_eval DOLFIN_EPS_run values' [1; 0.5]) = Some [1].
Proof.
  assert (H0 : 0 < DOLFIN_EPS_run) by (unfold DOLFIN_EPS_run; lra).
  assert (H1 : DOLFIN_EPS_run <= 1) by (unfold DOLFIN_EPS_run; lra).
  split; [exact H0 |]. split; [exact H1 |].
  exact (proj1 (SaturationBC_value_carries_over DOLFIN_EPS_run 0 1 0
                  [] [0.5] [0.5] H0 H1)).
Defined.

Close Scope R_scope.

(** ** The time loop *)

Lemma clock_succ (k : nat) :
  forall t0, TimeLoop.clock (S k) t0 = (TimeLoop.clock k t0 + TimeLoop.float_dt)%float.
Proof.
  induction k as [| k IH]; intros t0; [reflexivity |].
  change (TimeLoop.clock (S (S k)) t0)
    with (TimeLoop.clock (S k) (t0 + TimeLoop.float_dt)%float).
  rewrite IH; reflexivity.
Qed.

Lemma clock_values_succ (k : nat) :
  clock_values (S k) = clock_values k ++ [TimeLoop.clock (S k) 0%float].
Proof.
  unfold clock_values; rewrite seq_S, map_app; reflexivity.
Qed.

Lemma clock_stops_at_251 (k : nat) :
  k <= 251 ->
  (TimeLoop.clock k 0 <? TimeLoop.T)%float = true -> k <= 250.
Proof.
  intros Hk Ht.
  destruct (Nat.eq_dec k 251) as [-> | N]; [| lia].
  vm_compute in Ht; discriminate.
Qed.

Lemma clock_values_increasing (k : nat) :
  k <= 251 -> increasing (clock_values k) = true.
Proof.
  intros Hk.
  assert (H : forallb (fun i => increasing (clock_values i)) (seq 0 252) = true)
    by (vm_compute; reflexivity).
  rewrite forallb_forall in H; apply H, in_seq; lia.
Qed.

Section MoreLoopFacts.

Import TimeLoop.

Variable Vec : Type.
Variable solver_solve : Vec -> Vec -> option Vec.
Variable zero : Vec.

Lemma write_times_app (f : sink) (tr1 tr2 : list (event Vec)) :
  write_times f (tr1 ++ tr2) = write_times f tr1 ++ write_times f tr2.
Proof.
  induction tr1 as [| e tr1 IH]; [reflexivity |].
  destruct e as [U0' | t' U' | t' | g t' U']; simpl; try exact IH.
  destruct (sink_eqb f g); simpl; rewrite IH; reflexivity.
Qed.

Lemma snapshots_app (tr1 tr2 : list (event Vec)) :
  snapshots (tr1 ++ tr2) = snapshots tr1 ++ snapshots tr2.
Proof.
  induction tr1 as [| e tr1 IH]; [reflexivity |].
  destruct e; simpl; rewrite IH; reflexivity.
Qed.

Lemma solutions_app (tr1 tr2 : list (event Vec)) :
  solutions (tr1 ++ tr2) = solutions tr1 ++ solutions tr2.
Proof.
  induction tr1 as [| e tr1 IH]; [reflexivity |].
  destruct e; simpl; rewrite IH; reflexivity.
Qed.

Lemma loop_invariant_init :
  loop_invariant zero {| t := 0; U := zero; U0 := zero; trace := [] |}.
Proof.
  split; simpl;
    [reflexivity | exact (Nat.le_0_l 251) | reflexivity
    | intros f; reflexivity | reflexivity].
Qed.

Lemma loop_invariant_step (st : state Vec) (U' : Vec) :
  loop_invariant zero st ->
  (t st <? T)%float = true ->
  loop_invariant zero
    {| t := (t st + float_dt)%float; U := U'; U0 := U st;
       trace := trace st ++
         [Assigned (U st); Solved (t st + float_dt)%float U';
          Written p_file (t st + float_dt)%float U';
          Written s_file (t st + float_dt)%float U';
          Written u_file (t st + float_dt)%float U';
          Written data_file_time (t st + float_dt)%float U'] |}.
Proof.
  intros [Hc Hb Hs Hw Hch] Ht.
  assert (Hk : steps (trace st) <= 250)
    by (apply clock_stops_at_251; [exact Hb | rewrite <- Hc; exact Ht]).
  assert (Hsteps : forall tr' : list (event Vec),
             steps (trace st ++ Assigned (U st) :: tr')
             = steps (trace st) + steps (Assigned (U st) :: tr'))
    by (intros tr'; apply steps_app).
  split; cbn [t U U0 trace].
  - rewrite steps_app.
    change (steps [Assigned (U st); _; _; _; _; _]) with 1.
    rewrite Nat.add_1_r, clock_succ, <- Hc; reflexivity.
  - rewrite steps_app.
    change (steps [Assigned (U st); _; _; _; _; _]) with 1; lia.
  - rewrite solves_app, steps_app, Hs; reflexivity.
  - intros f; rewrite write_times_app, steps_app, (Hw f).
    change (steps [Assigned (U st); _; _; _; _; _]) with 1.
    rewrite Nat.add_1_r, clock_values_succ, clock_succ, <- Hc.
    destruct f; reflexivity.
  - rewrite snapshots_app, solutions_app; simpl.
    rewrite <- app_assoc; simpl.
    rewrite app_comm_cons, <- Hch, <- app_assoc; reflexivity.
Qed.

Lemma abort_invariant_step (st : state Vec) :
  loop_invariant zero st ->
  (t st <? T)%float = true ->
  abort_invariant zero (t st + float_dt)%float
    (trace st ++ [Assigned (U st); Raised (t st + float_dt)%float]).
Proof.
  intros [Hc Hb Hs Hw Hch] Ht.
  assert (Hk : steps (trace st) <= 250)
    by (apply clock_stops_at_251; [exact Hb | rewrite <- Hc; exact Ht]).
  split.
  - rewrite steps_app.
    change (steps [Assigned (U st); _]) with 1.
    rewrite Nat.add_1_r, clock_succ, <- Hc; reflexivity.
  - rewrite steps_app. change (steps [Assigned (U st); _]) with 1; lia.
  - rewrite solves_app, steps_app, Hs.
    change (steps [Assigned (U st); _]) with 1.
    change (solves [Assigned (U st); Raised (t st + float_dt)%float]) with 0; lia.
  - intros f; rewrite write_times_app, solves_app, (Hw f), Hs; simpl.
    rewrite app_nil_r, Nat.add_0_r; reflexivity.
  - rewrite snapshots_app, solutions_app; simpl.
    rewrite app_nil_r; exact Hch.
Qed.

Lemma time_loop_invariant (fuel : nat) :
  forall st,
    loop_invariant zero st ->
    outcome_invariant zero (time_loop Vec solver_solve fuel st).
Proof.
  induction fuel as [| fuel IH]; intros st Hst; simpl; [exact Hst |].
  destruct (t st <? T)%float eqn:Ht; [| exact Hst].
  destruct (solver_solve (U st) (U st)) as [U' |] eqn:Hs.
  - rewrite (loop_body_converged Vec solver_solve st U' Hs).
    apply IH, loop_invariant_step; assumption.
  - rewrite (loop_body_raised Vec solver_solve st Hs).
    apply abort_invariant_step; assumption.
Qed.

Lemma time_loop_has_enough_fuel (n : nat) :
  forall fuel st,
    loop_invariant zero st ->
    steps (trace st) + n = 251 ->
    n < fuel ->
    forall st', time_loop Vec solver_solve fuel st <> OutOfFuel st'.
Proof.
  induction n as [| n IH]; intros fuel st Hst Hn Hfuel st';
    (destruct fuel as [| fuel]; [lia |]); simpl.
  - assert (Ht : (t st <? T)%float = false).
    { rewrite (inv_clock zero st Hst).
      replace (steps (trace st)) with 251 by lia.
      vm_compute; reflexivity. }
    rewrite Ht; discriminate.
  - destruct (t st <? T)%float eqn:Ht; [| discriminate].
    destruct (solver_solve (U st) (U st)) as [U' |] eqn:Hs.
    + rewrite (loop_body_converged Vec solver_solve st U' Hs).
      apply IH; [now apply loop_invariant_step | | lia].
      cbn [trace]; rewrite steps_app.
      change (steps [Assigned (U st); _; _; _; _; _]) with 1; lia.
    + rewrite (loop_body_raised Vec solver_solve st Hs); discriminate.
Qed.

(** X17.  The loop always ends: whatever the solver does, a run makes
    at most 251 passes, so with fuel for more than 251 it ends by itself
    or by an exception, never for lack of fuel. *)
Theorem run_ends_within_251_passes (fuel : nat) :
  251 < fuel ->
  steps (trace_of (run Vec solver_solve fuel zero)) <= 251
  /\ forall st, run Vec solver_solve fuel zero <> OutOfFuel st.
Proof.
  intros Hfuel; split.
  - pose proof (time_loop_invariant fuel _ loop_invariant_init) as H.
    fold (run Vec solver_solve fuel zero) in H.
    destruct (run Vec solver_solve fuel zero) as [st | t' tr | st]; simpl in *.
    + exact (inv_bound zero st H).
    + exact (ab_bound zero t' tr H).
    + exact (inv_bound zero st H).
  - intros st.
    apply (time_loop_has_enough_fuel 251 fuel _ loop_invariant_init);
      [reflexivity | exact Hfuel].
Qed.

(** X18.  The writes of a run carry the clock values in order: for each
    sink the time stamps are [clock 1 0, ..., clock k 0] with [k] the
    number of solved passes, a strictly increasing list. *)
Theorem export_time_stamps (fuel : nat) (f : sink) :
  let tr := trace_of (run Vec solver_solve fuel zero) in
  write_times f tr = clock_values (solves tr)
  /\ increasing (write_times f tr) = true.
Proof.
  intros tr.
  pose proof (time_loop_invariant fuel _ loop_invariant_init) as H.
  fold (run Vec solver_solve fuel zero) in H.
  assert (Hw : write_times f tr = clock_values (solves tr) /\ solves tr <= 251).
  { unfold tr; destruct (run Vec solver_solve fuel zero) as [st | t' tr' | st];
      simpl in *.
    - rewrite (inv_solves zero st H).
      split; [exact (inv_stamps zero st H f) | exact (inv_bound zero st H)].
    - split; [exact (ab_stamps zero t' tr' H f) |].
      pose proof (ab_solves zero t' tr' H); pose proof (ab_bound zero t' tr' H); lia.
    - rewrite (inv_solves zero st H).
      split; [exact (inv_stamps zero st H f) | exact (inv_bound zero st H)]. }
  destruct Hw as [Hw Hb]; split; [exact Hw |].
  rewrite Hw; now apply clock_values_increasing.
Qed.

(** X19.  Every pass starts from the solution of the pass before: the
    snapshots [U0] taken in a run are [zero] followed by the solutions
    returned, in order; when the run ends by itself the last solution is
    the final [U], and when a solve raises there is a snapshot for the
    failed pass too. *)
Theorem snapshot_is_previous_solution (fuel : nat) :
  match run Vec solver_solve fuel zero with
  | Done st | OutOfFuel st =>
      snapshots (trace st) ++ [U st] = zero :: solutions (trace st)
  | Aborted _ tr => snapshots tr = zero :: solutions tr
  end.
Proof.
  pose proof (time_loop_invariant fuel _ loop_invariant_init) as H.
  fold (run Vec solver_solve fuel zero) in H.
  destruct (run Vec solver_solve fuel zero) as [st | t' tr | st]; simpl in *.
  - exact (inv_chain zero st H).
  - exact (ab_chain zero t' tr H).
  - exact (inv_chain zero st H).
Qed.

(** X20.  The clock counts the passes: at the end of a run [t] is the
    clock after as many increments as passes were begun; every pass begun
    was solved, except the last one of a run that ends by an exception. *)
Theorem clock_counts_passes (fuel : nat) :
  match run Vec solver_solve fuel zero with
  | Done st | OutOfFuel st =>
      t st = clock (steps (trace st)) 0
      /\ solves (trace st) = steps (trace st)
  | Aborted t' tr =>
      t' = clock (steps tr) 0 /\ S (solves tr) = steps tr
  end.
Proof.
  pose proof (time_loop_invariant fuel _ loop_invariant_init) as H.
  fold (run Vec solver_solve fuel zero) in H.
  destruct (run Vec solver_solve fuel zero) as [st | t' tr | st]; simpl in *.
  - split; [exact (inv_clock zero st H) | exact (inv_solves zero st H)].
  - split; [exact (ab_clock zero t' tr H) | exact (ab_solves zero t' tr H)].
  - split; [exact (inv_clock zero st H) | exact (inv_solves zero st H)].
Qed.

End MoreLoopFacts.

Lemma run_ends_within_251_passes_witness :
  251 < 252
  /\ TimeLoop.steps (TimeLoop.trace_of (TimeLoop.run unit failing_solve 252 tt)) <= 251
  /\ forall st, TimeLoop.run unit failing_solve 252 tt <> TimeLoop.OutOfFuel st.
Proof.
  split; [exact (Nat.lt_succ_diag_r 251) |].
  exact (run_ends_within_251_passes unit failing_solve tt 252
           (Nat.lt_succ_diag_r 251)).
Defined.

(** ** The problem object *)

(** X21.  Whatever calls of [F] and [J] a solver makes, in any order,
    [reset_sparsity] is [True] exactly until the first call of [J], and the
    two forms and the form-compiler parameters are never changed. *)
Theorem reset_sparsity_until_first_J
  (Form Params Tensor Vec : Type)
  (assemble : Form -> Params -> Vec -> Tensor)
  (a0 L0 : Form) (ps : Params) (cs : list (call * Tensor * Vec)) :
  let pb := after_calls assemble (MyNonlinearProblem.init Form Params a0 L0 ps) cs in
  MyNonlinearProblem.reset_sparsity pb
  = negb (existsb (fun c => is_J (fst (fst c))) cs)
  /\ MyNonlinearProblem.L pb = L0
  /\ MyNonlinearProblem.a pb = a0
  /\ MyNonlinearProblem.ffc_parameters pb = ps.
Proof.
  assert (Hgen : forall pb0 : MyNonlinearProblem.problem Form Params,
             let pb := after_calls assemble pb0 cs in
             MyNonlinearProblem.reset_sparsity pb
             = MyNonlinearProblem.reset_sparsity pb0
               && negb (existsb (fun c => is_J (fst (fst c))) cs)
             /\ MyNonlinearProblem.L pb = MyNonlinearProblem.L pb0
             /\ MyNonlinearProblem.a pb = MyNonlinearProblem.a pb0
             /\ MyNonlinearProblem.ffc_parameters pb
                = MyNonlinearProblem.ffc_parameters pb0).
  { induction cs as [| [[c b] x] cs' IH]; intros pb0.
    - simpl; rewrite andb_true_r; repeat split.
    - destruct c; simpl.
      + exact (IH pb0).
      + destruct (IH {| MyNonlinearProblem.L := MyNonlinearProblem.L pb0;
                        MyNonlinearProblem.a := MyNonlinearProblem.a pb0;
                        MyNonlinearProblem.reset_sparsity := false;
                        MyNonlinearProblem.ffc_parameters :=
                          MyNonlinearProblem.ffc_parameters pb0 |})
          as (Hr & HL & Ha & Hp).
        simpl in *. rewrite andb_false_r. repeat split; assumption. }
  exact (Hgen (MyNonlinearProblem.init Form Params a0 L0 ps)).
Qed.
